(** * Log & Metrics Collector: the collection-and-aggregation core of app.py

    A shallow embedding of the classes [LogCollector], [LogFileHandler],
    [SystemMetrics] and of [LogMetricsCollector.load_existing_logs], with the
    properties of the specification stated and settled against it.

    Conventions of the model.
    - A Python [str] is a [string]; a character is one of the 256 code points
      of [ascii].  The four level patterns consist of ASCII letters and
      brackets; in this range a character matches such a literal under
      [re.IGNORECASE] exactly when their ASCII lower-case forms agree.
      [lower()] and [upper()] are modelled on the ASCII letters, which is all
      the texts the collector builds its keys and levels from contain; other
      characters are left as they are.
    - A Python [dict] with computed keys is a [gmap string _]; reading a
      missing key raises [KeyError].
    - A [deque(maxlen=n)] is the list of its elements, oldest first.
    - Mutable objects live in one program state that is threaded through a
      state-and-exception monad; an exception keeps the mutations made before
      it was raised, as in Python.
    - The operating system (file sizes, file contents, directory listings, the
      clock, psutil) is an explicit environment argument; each call of it
      either returns a value or raises.
    - Every method runs to its end before the next one starts: the locks of
      the two stores and the interleaving of threads are not modelled.
    - Console output of [print] is not modelled. *)

From Stdlib Require Import ZArith NArith Bool Ascii String List Lia.
From stdpp Require Import base option list strings gmap fin_maps.

Local Open Scope string_scope.
Local Open Scope list_scope.
Local Open Scope Z_scope.

(** ** Python strings *)

Module Str.

Definition code (c : ascii) : N := N_of_ascii c.

Definition isupper (c : ascii) : bool := ((65 <=? code c) && (code c <=? 90))%N.
Definition islower (c : ascii) : bool := ((97 <=? code c) && (code c <=? 122))%N.

(** Case mapping of one character; only ASCII letters move. *)
Definition lower_char (c : ascii) : ascii :=
  if isupper c then ascii_of_N (code c + 32) else c.
Definition upper_char (c : ascii) : ascii :=
  if islower c then ascii_of_N (code c - 32) else c.

Fixpoint map (f : ascii -> ascii) (s : string) : string :=
  match s with
  | EmptyString => EmptyString
  | String c s' => String (f c) (map f s')
  end.

(** [s.lower()] and [s.upper()] *)
Definition lower : string -> string := map lower_char.
Definition upper : string -> string := map upper_char.

(** [s[n:]] for [n >= 0] *)
Fixpoint drop (n : nat) (s : string) : string :=
  match n, s with
  | O, _ => s
  | S n', String _ s' => drop n' s'
  | S _, EmptyString => EmptyString
  end.

(** [s[:n]] for [n >= 0] *)
Fixpoint take (n : nat) (s : string) : string :=
  match n, s with
  | S n', String c s' => String c (take n' s')
  | _, _ => EmptyString
  end.

Fixpoint rev_onto (acc s : string) : string :=
  match s with
  | EmptyString => acc
  | String c s' => rev_onto (String c acc) s'
  end.
Definition rev : string -> string := rev_onto EmptyString.

(** The characters [str.strip()] removes, among the code points below 256:
    tab, LF, VT, FF, CR, the separators FS GS RS US, space, NEL and the
    no-break space. *)
Definition isspace (c : ascii) : bool :=
  let n := code c in
  (((9 <=? n) && (n <=? 13)) || ((28 <=? n) && (n <=? 32))
   || (n =? 133) || (n =? 160))%N.

Fixpoint lstrip (s : string) : string :=
  match s with
  | String c s' => if isspace c then lstrip s' else s
  | EmptyString => EmptyString
  end.
Definition rstrip (s : string) : string := rev (lstrip (rev s)).
(** [s.strip()] *)
Definition strip (s : string) : string := rstrip (lstrip s).

(** [s.endswith(suffix)] *)
Definition endswith (s suffix : string) : bool :=
  String.eqb (drop (String.length s - String.length suffix) s) suffix
  && (String.length suffix <=? String.length s)%nat.

(** Truth value of a string: the empty string is false. *)
Definition truthy (s : string) : bool :=
  match s with EmptyString => false | _ => true end.

(** [x in xs] for a list of strings *)
Definition mem (x : string) (xs : list string) : bool :=
  existsb (String.eqb x) xs.

End Str.

(** ** The regular expressions of [extract_log_level]

    The four patterns use literals, concatenation, alternation, the greedy
    [?] and one capturing group.  [rmatch] is a backtracking matcher in
    continuation style: alternatives are tried left to right, [r?] first
    tries [r], and a later failure backtracks into the earlier choice. *)

Module Re.

Inductive regex : Type :=
| Eps
| Lit (c : ascii)
| Cat (r1 r2 : regex)
| Alt (r1 r2 : regex)
| Opt (r : regex)
| Group (r : regex).

(** A match object: only [group(1)] is observed; it is [None] when the
    group took no part in the match. *)
Record Match : Type := { group1 : option string }.

(** One literal against one character.  With [re.IGNORECASE] both sides
    are compared lower-cased. *)
Definition chr_eq (ignorecase : bool) (p c : ascii) : bool :=
  if ignorecase
  then Ascii.eqb (Str.lower_char p) (Str.lower_char c)
  else Ascii.eqb p c.

Section Matcher.
Context {A : Type}.
Variable ignorecase : bool.

Fixpoint rmatch (r : regex) (s : string) (g : option string)
         (k : string -> option string -> option A) : option A :=
  match r with
  | Eps => k s g
  | Lit p =>
      match s with
      | String c s' => if chr_eq ignorecase p c then k s' g else None
      | EmptyString => None
      end
  | Cat r1 r2 => rmatch r1 s g (fun s' g' => rmatch r2 s' g' k)
  | Alt r1 r2 =>
      match rmatch r1 s g k with
      | Some m => Some m
      | None => rmatch r2 s g k
      end
  | Opt r1 =>
      match rmatch r1 s g k with
      | Some m => Some m
      | None => k s g
      end
  | Group r1 =>
      rmatch r1 s g
        (fun s' _ =>
           k s' (Some (Str.take (String.length s - String.length s') s)))
  end.
End Matcher.

(** The end of the pattern is reached: the match is complete. *)
Definition accept (_ : string) (g : option string) : option Match :=
  Some {| group1 := g |}.

(** A match starting exactly at the head of [s]. *)
Definition match_here (ignorecase : bool) (r : regex) (s : string) : option Match :=
  rmatch ignorecase r s None accept.

(** [re.search]: the leftmost start position that matches, the end of the
    string included. *)
Fixpoint search (ignorecase : bool) (r : regex) (s : string) : option Match :=
  match match_here ignorecase r s with
  | Some m => Some m
  | None =>
      match s with
      | EmptyString => None
      | String _ s' => search ignorecase r s'
      end
  end.

(** A word as a sequence of literals, and [w1|w2|...]. *)
Fixpoint word (w : string) : regex :=
  match w with
  | EmptyString => Eps
  | String c w' => Cat (Lit c) (word w')
  end.

Fixpoint alts (ws : list string) : regex :=
  match ws with
  | [] => Eps
  | [w] => word w
  | w :: ws' => Alt (word w) (alts ws')
  end.

End Re.

(** ** Exceptions *)

Inductive exc (A : Type) : Type :=
| Ok (a : A)
| Raise (e : string).
Arguments Ok {A} a.
Arguments Raise {A} e.

(** ** [LogCollector.extract_log_level] *)

(** [\[?(w1|...|wn)\]?] *)
Definition level_pattern (ws : list string) : Re.regex :=
  Re.Cat (Re.Opt (Re.Lit "[")) (Re.Cat (Re.Group (Re.alts ws)) (Re.Opt (Re.Lit "]"))).

Definition patterns : list Re.regex :=
  [ level_pattern ["ERROR"; "CRITICAL"; "FATAL"];
    level_pattern ["WARN"; "WARNING"];
    level_pattern ["INFO"; "INFORMATION"];
    level_pattern ["DEBUG"; "TRACE"] ].

(** The body of the [for pattern in patterns] loop for the patterns still to
    be tried.  A match whose upper-cased group is in none of the four lists
    returns nothing and the loop goes on; [group(1)] being [None] would
    raise [AttributeError] on [.upper()]. *)
Fixpoint extract_loop (ps : list Re.regex) (log_line : string) : exc string :=
  match ps with
  | [] => Ok "UNKNOWN"
  | pattern :: ps' =>
      match Re.search true pattern log_line with
      | Some m =>
          match Re.group1 m with
          | None => Raise "AttributeError"
          | Some g =>
              let level := Str.upper g in
              if Str.mem level ["WARN"; "WARNING"] then Ok "WARNING"
              else if Str.mem level ["INFO"; "INFORMATION"] then Ok "INFO"
              else if Str.mem level ["ERROR"; "CRITICAL"; "FATAL"] then Ok "ERROR"
              else if Str.mem level ["DEBUG"; "TRACE"] then Ok "DEBUG"
              else extract_loop ps' log_line
          end
      | None => extract_loop ps' log_line
      end
  end.

Definition extract_log_level (log_line : string) : exc string :=
  extract_loop patterns log_line.

(** ** The state-and-exception monad

    A computation reads and writes a state of type [S], may emit records to
    the [logging] module, and either returns or raises.  The state reached
    and the records emitted before an exception are kept. *)

Record Res (S A : Type) : Type :=
  mkRes { result : exc A; state : S; logged : list string }.
Arguments mkRes {S A} result state logged.
Arguments result {S A} r.
Arguments state {S A} r.
Arguments logged {S A} r.

Definition M (S A : Type) : Type := S -> Res S A.

Section MonadOps.
Context {S : Type}.

Definition ret {A} (a : A) : M S A := fun s => mkRes (Ok a) s [].

Definition bind {A B} (m : M S A) (f : A -> M S B) : M S B :=
  fun s =>
    let r := m s in
    match result r with
    | Ok a =>
        let r' := f a (state r) in
        mkRes (result r') (state r') (logged r ++ logged r')
    | Raise e => mkRes (Raise e) (state r) (logged r)
    end.

Definition raise {A} (e : string) : M S A := fun s => mkRes (Raise e) s [].

(** Result of a call into the environment. *)
Definition call {A} (x : exc A) : M S A :=
  match x with Ok a => ret a | Raise e => raise e end.

Definition gets {A} (f : S -> A) : M S A := fun s => mkRes (Ok (f s)) s [].
Definition modify (f : S -> S) : M S unit := fun s => mkRes (Ok tt) (f s) [].

(** [logging.error(msg)] *)
Definition logging_error (msg : string) : M S unit := fun s => mkRes (Ok tt) s [msg].

(** [try: body  except Exception as e: handler e] *)
Definition try_except {A} (body : M S A) (handler : string -> M S A) : M S A :=
  fun s =>
    let r := body s in
    match result r with
    | Ok a => r
    | Raise e =>
        let r' := handler e (state r) in
        mkRes (result r') (state r') (logged r ++ logged r')
    end.
End MonadOps.

#[global] Instance M_ret {S} : MRet (M S) := @ret S.
#[global] Instance M_bind {S} : MBind (M S) := fun A B f m => bind m f.

(** [for i, x in enumerate(xs, start): body i x] *)
Fixpoint for_each {S A} (start : nat) (xs : list A) (body : nat -> A -> M S unit) : M S unit :=
  match xs with
  | [] => ret tt
  | x :: xs' => bind (body start x) (fun _ => for_each (Datatypes.S start) xs' body)
  end.

(** Run a computation on a component of the state. *)
Definition zoom {S T A} (get : S -> T) (set : T -> S -> S) (m : M T A) : M S A :=
  fun s =>
    let r := m (get s) in
    mkRes (result r) (set (state r) s) (logged r).

(** ** [collections.deque(maxlen=n)] *)

(** [d.append(x)]: the element is added on the right, then the leftmost one is
    dropped when the deque has outgrown [maxlen]. *)
Definition deque_append {A} (maxlen : nat) (d : list A) (x : A) : list A :=
  let d' := d ++ [x] in
  if (maxlen <? length d')%nat then tail d' else d'.

(** ** Python lists *)

(** [xs[start:]] for any integer [start]. *)
Definition slice_from {A} (start : Z) (xs : list A) : list A :=
  let len := Z.of_nat (length xs) in
  let start := if start <? 0 then Z.max 0 (start + len) else Z.min start len in
  drop (Z.to_nat start) xs.

(** A parameter with a default value. *)
Inductive arg (A : Type) : Type :=
| Omitted
| Given (a : A).
Arguments Omitted {A}.
Arguments Given {A} a.

Definition arg_or {A} (default : A) (x : arg A) : A :=
  match x with Omitted => default | Given a => a end.

(** ** [os.path] (POSIX) *)

Module Path.
(** The text after the last slash. *)
Fixpoint basename (p : string) : string :=
  match p with
  | EmptyString => EmptyString
  | String c p' =>
      if existsb (Ascii.eqb "/") (list_ascii_of_string p') then basename p'
      else if Ascii.eqb c "/" then p' else p
  end.

Definition join (a b : string) : string :=
  if Str.endswith (Str.take 1 b) "/" then b
  else if orb (negb (Str.truthy a)) (Str.endswith a "/") then a +:+ b
  else a +:+ "/" +:+ b.
End Path.

(** ** [LogCollector] *)

Record LogEntry : Type := mkLogEntry {
  timestamp : string;
  file : string;
  full_path : string;
  message : string;
  level : string
}.

Record LogCollector : Type := mkLogCollector {
  max_entries : nat;
  log_entries : list LogEntry;
  log_stats : gmap string Z
}.

Definition set_log_entries (es : list LogEntry) (c : LogCollector) : LogCollector :=
  mkLogCollector (max_entries c) es (log_stats c).
Definition set_log_stats (st : gmap string Z) (c : LogCollector) : LogCollector :=
  mkLogCollector (max_entries c) (log_entries c) st.

(** [LogCollector.__init__] *)
Definition LogCollector_init (max_entries : nat) : LogCollector :=
  mkLogCollector max_entries []
    (<["total_entries" := 0]> (<["error_count" := 0]> (<["warning_count" := 0]>
     (<["info_count" := 0]> (<["debug_count" := 0]> (<["unknown_count" := 0]> ∅)))))).

(** [self.log_stats[key] += 1] *)
Definition stats_incr (key : string) : M LogCollector unit :=
  stats ← gets log_stats;
  match stats !! key with
  | Some n => modify (set_log_stats (<[key := n + 1]> stats))
  | None => raise "KeyError"
  end.

(** [add_log_entry]; [now] is the reading of [datetime.now().isoformat()].
    The three updates after the entry is built run under [self.lock]. *)
Definition add_log_entry (now : string) (file_path line : string) : M LogCollector unit :=
  lvl ← call (extract_log_level line);
  let entry := mkLogEntry now (Path.basename file_path) file_path line lvl in
  modify (fun c => set_log_entries (deque_append (max_entries c) (log_entries c) entry) c);;
  stats_incr "total_entries";;
  let level := Str.lower (level entry) in
  let count_key := level +:+ "_count" in
  stats ← gets log_stats;
  if decide (is_Some (stats !! count_key)) then stats_incr count_key else mret tt.

(** The body of [get_recent_logs] for given argument values: [limit] and
    [level_filter] are [None] or a value. *)
Definition recent_logs (limit : option Z) (level_filter : option string)
           (c : LogCollector) : list LogEntry :=
  let logs := log_entries c in
  let logs :=
    match level_filter with
    | Some f =>
        if Str.truthy f
        then let level_filter := Str.upper f in
             filter (fun log => level log = level_filter) logs
        else logs
    | None => logs
    end in
  match limit with
  | Some n => if n =? 0 then logs else slice_from (- n) logs
  | None => logs
  end.

(** [get_recent_logs(self, limit=10, level_filter=None)] *)
Definition get_recent_logs (limit : arg (option Z)) (level_filter : arg (option string))
           (c : LogCollector) : list LogEntry :=
  recent_logs (arg_or (Some 10) limit) (arg_or None level_filter) c.

(** [get_log_stats]: a copy of the counters. *)
Definition get_log_stats (c : LogCollector) : gmap string Z := log_stats c.

(** ** The environment of the log tailer *)

(** A file opened with [open(path, 'r', encoding='utf-8')].  [f_seek pos] is
    [f.seek(pos)]; [f_readlines pos] is [f.readlines()] with the stream at
    position [pos]: the decoded lines from there to the end of the file, each
    with its line end.  Either may raise ([OSError], [UnicodeDecodeError]). *)
Record TextFile : Type := mkTextFile {
  f_seek : Z -> exc unit;
  f_readlines : Z -> exc (list string)
}.

(** What the operating system answers during one notification (or during the
    start-up scan).  [now path i] is the clock reading taken while line [i]
    read from [path] is handled. *)
Record OS : Type := mkOS {
  getsize : string -> exc Z;
  open_text : string -> exc TextFile;
  path_exists : string -> bool;
  listdir : string -> exc (list string);
  now : string -> nat -> string
}.

(** ** [LogFileHandler] and the part of [LogMetricsCollector] that feeds it

    [log_collector] is the one [LogCollector] object that the facade and its
    [LogFileHandler] both hold; [file_positions] is the handler's dictionary;
    [directories] is [config['logging']['directories']]. *)
Record LogMetricsCollector : Type := mkApp {
  directories : list string;
  log_collector : LogCollector;
  file_positions : gmap string Z
}.

Definition set_log_collector (c : LogCollector) (a : LogMetricsCollector) : LogMetricsCollector :=
  mkApp (directories a) c (file_positions a).
Definition set_file_positions (fp : gmap string Z) (a : LogMetricsCollector) : LogMetricsCollector :=
  mkApp (directories a) (log_collector a) fp.

(** [LogMetricsCollector.__init__] with [config['logging']] given. *)
Definition LogMetricsCollector_init (dirs : list string) (max_entries : nat) : LogMetricsCollector :=
  mkApp dirs (LogCollector_init max_entries) ∅.

(** [self.log_collector.add_log_entry(file_path, line)] *)
Definition collector_add (now : string) (file_path line : string) : M LogMetricsCollector unit :=
  zoom log_collector set_log_collector (add_log_entry now file_path line).

(** The loop shared by the tailer and the start-up scan:
    [for line in lines: line = line.strip(); if line: add_log_entry(...)]. *)
Definition ingest_lines (os : OS) (file_path : string) (lines : list string) : M LogMetricsCollector unit :=
  for_each 0 lines
    (fun i line =>
       let line := Str.strip line in
       if Str.truthy line then collector_add (now os file_path i) file_path line
       else mret tt).

(** [LogFileHandler.process_log_file] *)
Definition process_log_file (os : OS) (file_path : string) : M LogMetricsCollector unit :=
  try_except
    (current_size ← call (getsize os file_path);
     positions ← gets file_positions;
     let last_position := default 0 (positions !! file_path) in
     if last_position <? current_size then
       f ← call (open_text os file_path);
       call (f_seek f last_position);;
       new_lines ← call (f_readlines f last_position);
       ingest_lines os file_path new_lines;;
       modify (fun a => set_file_positions (<[file_path := current_size]> (file_positions a)) a)
     else mret tt)
    (fun e => logging_error ("Error processing log file " +:+ file_path +:+ ": " +:+ e)).

Record Event : Type := mkEvent { is_directory : bool; src_path : string }.

(** [LogFileHandler.on_modified] *)
Definition on_modified (os : OS) (event : Event) : M LogMetricsCollector unit :=
  if negb (is_directory event) && Str.endswith (src_path event) ".log"
  then process_log_file os (src_path event)
  else mret tt.

(** [lines[-10:]] *)
Definition last10 {A} (lines : list A) : list A := slice_from (-10) lines.

(** [LogMetricsCollector.load_existing_logs].  Only the reading of one file is
    inside [try]; an exception of [os.listdir] leaves the function. *)
Definition load_file (os : OS) (file_path : string) : M LogMetricsCollector unit :=
  try_except
    (f ← call (open_text os file_path);
     lines ← call (f_readlines f 0);
     ingest_lines os file_path (last10 lines))
    (fun e => logging_error ("Error loading " +:+ file_path +:+ ": " +:+ e)).

Definition load_directory (os : OS) (log_dir : string) : M LogMetricsCollector unit :=
  if path_exists os log_dir then
    filenames ← call (listdir os log_dir);
    for_each 0 filenames
      (fun _ filename =>
         if Str.endswith filename ".log"
         then load_file os (Path.join log_dir filename)
         else mret tt)
  else mret tt.

Definition load_existing_logs (os : OS) : M LogMetricsCollector unit :=
  dirs ← gets directories;
  for_each 0 dirs (fun _ log_dir => load_directory os log_dir).

(** ** [SystemMetrics]

    Floating-point readings are values of an abstract type [num];
    [gb b] stands for [round(b / (1024**3), 2)]. *)

Record Memory (num : Type) : Type := mkMemory {
  mem_percent : num; mem_used : Z; mem_total : Z }.
Record DiskUsage (num : Type) : Type := mkDiskUsage {
  disk_percent : num; disk_used : Z; disk_total : Z }.
Record NetIO : Type := mkNetIO {
  bytes_sent : Z; bytes_recv : Z; packets_sent : Z; packets_recv : Z }.
Arguments mkMemory {num}.
Arguments mem_percent {num}.
Arguments mem_used {num}.
Arguments mem_total {num}.
Arguments mkDiskUsage {num}.
Arguments disk_percent {num}.
Arguments disk_used {num}.
Arguments disk_total {num}.

(** The answers of psutil during one sampling cycle. *)
Record Host (num : Type) : Type := mkHost {
  os_name : string;
  cpu_percent : exc num;
  cpu_count : exc (option Z);
  virtual_memory : exc (Memory num);
  disk_usage : string -> exc (DiskUsage num);
  pids : exc (list Z);
  net_io_counters : exc NetIO;
  clock : string
}.
Arguments mkHost {num}.
Arguments os_name {num}.
Arguments cpu_percent {num}.
Arguments cpu_count {num}.
Arguments virtual_memory {num}.
Arguments disk_usage {num}.
Arguments pids {num}.
Arguments net_io_counters {num}.
Arguments clock {num}.

(** The dictionary [get_current_metrics] builds. *)
Record Snapshot (num : Type) : Type := mkSnapshot {
  snap_timestamp : string;
  snap_cpu : num * option Z;
  snap_memory : num * num * num;
  snap_disk : num * num * num;
  snap_processes : nat;
  snap_network : NetIO
}.
Arguments mkSnapshot {num}.
Arguments snap_timestamp {num}.
Arguments snap_cpu {num}.
Arguments snap_memory {num}.
Arguments snap_disk {num}.
Arguments snap_processes {num}.
Arguments snap_network {num}.

Record SystemMetrics (num : Type) : Type := mkSystemMetrics {
  max_history : nat;
  metrics_history : list (Snapshot num);
  is_collecting : bool
}.
Arguments mkSystemMetrics {num}.
Arguments max_history {num}.
Arguments metrics_history {num}.
Arguments is_collecting {num}.

Section Metrics.
Context {num : Type}.
Variable gb : Z -> num.

(** [SystemMetrics.__init__] *)
Definition SystemMetrics_init (max_history : nat) : SystemMetrics num :=
  mkSystemMetrics max_history [] false.

(** The inner [try ... except:] around the network counters. *)
Definition network_data (h : Host num) : NetIO :=
  match net_io_counters h with
  | Ok network =>
      mkNetIO (bytes_sent network) (bytes_recv network)
              (packets_sent network) (packets_recv network)
  | Raise _ => mkNetIO 0 0 0 0
  end.

(** [get_current_metrics]: the snapshot, or [None] after logging when
    anything in the outer [try] raised. *)
Definition get_current_metrics (h : Host num) : M (SystemMetrics num) (option (Snapshot num)) :=
  try_except
    (cpu_pct ← call (cpu_percent h);
     cpu_cnt ← call (cpu_count h);
     memory ← call (virtual_memory h);
     disk ← call (disk_usage h (if String.eqb (os_name h) "nt" then "C:" else "/"));
     ps ← call (pids h);
     let process_count := length ps in
     let network := network_data h in
     mret (Some (mkSnapshot (clock h)
                   (cpu_pct, cpu_cnt)
                   (mem_percent memory, gb (mem_used memory), gb (mem_total memory))
                   (disk_percent disk, gb (disk_used disk), gb (disk_total disk))
                   process_count network)))
    (fun e => logging_error ("Error collecting metrics: " +:+ e);; mret None).

(** One turn of the [while self.is_collecting] loop, the sleep left out. *)
Definition collect_cycle (h : Host num) : M (SystemMetrics num) unit :=
  metrics ← get_current_metrics h;
  match metrics with
  | Some m =>
      modify (fun sm =>
        mkSystemMetrics (max_history sm)
          (deque_append (max_history sm) (metrics_history sm) m)
          (is_collecting sm))
  | None => mret tt
  end.

(** [collect_metrics_continuously]: one host observation per turn; the loop
    ends when [is_collecting] is found false. *)
Fixpoint collect_metrics_continuously (hs : list (Host num)) : M (SystemMetrics num) unit :=
  match hs with
  | [] => mret tt
  | h :: hs' =>
      running ← gets is_collecting;
      if (running : bool) then collect_cycle h;; collect_metrics_continuously hs'
      else mret tt
  end.

(** [get_metrics_history(self, limit=None)] *)
Definition get_metrics_history (limit : arg (option Z)) (sm : SystemMetrics num) : list (Snapshot num) :=
  let metrics := metrics_history sm in
  match arg_or None limit with
  | Some n => if n =? 0 then metrics else slice_from (- n) metrics
  | None => metrics
  end.
End Metrics.

(** ** A disk of ASCII text files

    A concrete environment for the scenarios below.  A file is its content;
    for ASCII text a byte offset is a character offset, and decoding cannot
    fail.  A path that names no file raises [FileNotFoundError]. *)

Module Disk.

Definition LF : ascii := ascii_of_N 10.
Definition CR : ascii := ascii_of_N 13.

(** Lines of a text in universal-newline mode: a line ends at LF, CR or
    CR LF, and its end is given back as LF.  [cur] is the current line,
    reversed. *)
Fixpoint split_lines (cur : string) (s : string) : list string :=
  match s with
  | EmptyString =>
      match cur with EmptyString => [] | _ => [Str.rev cur] end
  | String c s' =>
      if Ascii.eqb c LF then Str.rev (String LF cur) :: split_lines EmptyString s'
      else if Ascii.eqb c CR then
        match s' with
        | String d s'' =>
            if Ascii.eqb d LF
            then Str.rev (String LF cur) :: split_lines EmptyString s''
            else Str.rev (String LF cur) :: split_lines EmptyString s'
        | EmptyString => [Str.rev (String LF cur)]
        end
      else split_lines (String c cur) s'
  end.

Definition text_file (content : string) : TextFile :=
  mkTextFile
    (fun pos => if pos <? 0 then Raise "ValueError" else Ok tt)
    (fun pos => Ok (split_lines EmptyString (Str.drop (Z.to_nat pos) content))).

Definition lookup_file {A} (files : gmap string string) (path : string)
           (f : string -> A) : exc A :=
  match files !! path with
  | Some content => Ok (f content)
  | None => Raise "FileNotFoundError"
  end.

(** The environment given by the files [files] and the directory listings
    [dirs]; every clock reading is [time]. *)
Definition os (files : gmap string string) (dirs : gmap string (list string))
           (time : string) : OS :=
  mkOS
    (fun path => lookup_file files path (fun c => Z.of_nat (String.length c)))
    (fun path => lookup_file files path text_file)
    (fun path => bool_decide (is_Some (dirs !! path)) || bool_decide (is_Some (files !! path)))
    (fun path =>
       match dirs !! path with
       | Some names => Ok names
       | None => Raise "NotADirectoryError"
       end)
    (fun _ _ => time).

End Disk.

(** ** Definitions that follow the wording of the specification *)

(** [w] occurs at the head of [s], letter case ignored. *)
Fixpoint ci_prefix (w s : string) : bool :=
  match w, s with
  | EmptyString, _ => true
  | String a w', String b s' =>
      Ascii.eqb (Str.lower_char a) (Str.lower_char b) && ci_prefix w' s'
  | String _ _, EmptyString => false
  end.

(** [w] occurs somewhere in [s], letter case ignored. *)
Fixpoint contains_ci (w s : string) : bool :=
  ci_prefix w s ||
  match s with
  | EmptyString => false
  | String _ s' => contains_ci w s'
  end.

(** The first word of [ws] that occurs at the head of [s]. *)
Definition first_alt (ws : list string) (s : string) : option string :=
  List.find (fun w => ci_prefix w s) ws.

(** A level pattern without its leading [\[?]. *)
Definition body (ws : list string) : Re.regex :=
  Re.Cat (Re.Group (Re.alts ws)) (Re.Opt (Re.Lit "]")).

Definition has_token (ws : list string) (s : string) : bool :=
  existsb (fun w => contains_ci w s) ws.

(** The classifier of the specification: the classes in the fixed order
    ERROR, WARNING, INFO, DEBUG; the first class with a token in the line
    wins; otherwise UNKNOWN. *)
Definition classify (line : string) : string :=
  if has_token ["ERROR"; "CRITICAL"; "FATAL"] line then "ERROR"
  else if has_token ["WARN"; "WARNING"] line then "WARNING"
  else if has_token ["INFO"; "INFORMATION"] line then "INFO"
  else if has_token ["DEBUG"; "TRACE"] line then "DEBUG"
  else "UNKNOWN".

Definition levels : list string := ["ERROR"; "WARNING"; "INFO"; "DEBUG"; "UNKNOWN"].

(** Two lines that differ in letter case only. *)
Definition same_modulo_case (s t : string) : Prop := Str.lower s = Str.lower t.

(** One call [add_log_entry(file_path, line)] made at clock reading [now]. *)
Record Append : Type := mkAppend { a_now : string; a_path : string; a_line : string }.

(** A sequence of calls of [add_log_entry], in order. *)
Definition add_all (calls : list Append) : M LogCollector unit :=
  for_each 0 calls (fun _ a => add_log_entry (a_now a) (a_path a) (a_line a)).

(** The entry such a call stores. *)
Definition entry_of (a : Append) : LogEntry :=
  mkLogEntry (a_now a) (Path.basename (a_path a)) (a_path a) (a_line a) (classify (a_line a)).

(** The last [n] elements of a list. *)
Definition lastn {A} (n : nat) (xs : list A) : list A := drop (length xs - n) xs.

(** A counter of the statistics; 0 stands for a missing key. *)
Definition stat (key : string) (c : LogCollector) : Z := default 0 (get_log_stats c !! key).

Definition level_counts (c : LogCollector) : Z :=
  stat "error_count" c + stat "warning_count" c + stat "info_count" c
  + stat "debug_count" c + stat "unknown_count" c.

(** [stats[key] += 1] where the key is present, nothing otherwise. *)
Definition bump (key : string) (stats : gmap string Z) : gmap string Z :=
  match stats !! key with
  | Some n => <[key := n + 1]> stats
  | None => stats
  end.

(** The collector after a call of [add_log_entry] that did not raise. *)
Definition store (a : Append) (c : LogCollector) : LogCollector :=
  mkLogCollector (max_entries c)
    (deque_append (max_entries c) (log_entries c) (entry_of a))
    (bump (Str.lower (classify (a_line a)) +:+ "_count")
       (bump "total_entries" (log_stats c))).

Definition store_all (calls : list Append) (c : LogCollector) : LogCollector :=
  fold_left (fun c a => store a c) calls c.

Definition stat_keys : list string :=
  ["total_entries"; "error_count"; "warning_count"; "info_count"; "debug_count";
   "unknown_count"].

(** The six counters of [__init__] are there. *)
Definition stats_complete (c : LogCollector) : Prop :=
  forall k, In k stat_keys -> is_Some (log_stats c !! k).

(** The key [f'{level}_count'] of a line's level counter. *)
Definition count_key (line : string) : string :=
  Str.lower (classify line) +:+ "_count".

Definition level_keys : list string :=
  ["error_count"; "warning_count"; "info_count"; "debug_count"; "unknown_count"].

(** The current ring contents, filtered by severity when a filter is given
    (a filter that is [None] or the empty string selects everything). *)
Definition ring_filtered (level_filter : option string) (c : LogCollector) : list LogEntry :=
  match level_filter with
  | Some f =>
      if Str.truthy f
      then filter (fun e => level e = Str.upper f) (log_entries c)
      else log_entries c
  | None => log_entries c
  end.

(** The other order, which the specification rules out: the tail first,
    the filter after. *)
Definition tail_then_filter (n : nat) (f : string) (c : LogCollector) : list LogEntry :=
  filter (fun e => level e = Str.upper f) (lastn n (log_entries c)).

(** A store that received [n] lines, numbered from [n] down to 1, each
    with the given text. *)
Fixpoint numbered (n : nat) (text : string) : list Append :=
  match n with
  | O => []
  | S n' => mkAppend "2024-01-01T00:00:00" "logs/app.log" text :: numbered n' text
  end.

Definition store_of (capacity : nat) (calls : list Append) : LogCollector :=
  state (add_all calls (LogCollector_init capacity)).

(** Three lines of a log: one error followed by two informations. *)
Definition error_then_infos : list Append :=
  [ mkAppend "2024-01-01T00:00:01" "logs/app.log" "[ERROR] a";
    mkAppend "2024-01-01T00:00:02" "logs/app.log" "[INFO] b";
    mkAppend "2024-01-01T00:00:03" "logs/app.log" "[INFO] c" ].

(** The calls of [add_log_entry] that [ingest_lines] makes for the lines
    [lines], the first of which has index [i]: one per line that is not
    blank after stripping. *)
Fixpoint appends_of (os : OS) (file_path : string) (i : nat) (lines : list string) : list Append :=
  match lines with
  | [] => []
  | line :: lines' =>
      (if Str.truthy (Str.strip line)
       then [mkAppend (now os file_path i) file_path (Str.strip line)]
       else [])
      ++ appends_of os file_path (S i) lines'
  end.

(** The offset [process_log_file] reads for a path. *)
Definition last_position (file_path : string) (a : LogMetricsCollector) : Z :=
  default 0 (file_positions a !! file_path).

(** An I/O error [e] is raised while a notification for [file_path] is
    processed: by the size query or, the file having grown, by opening,
    seeking or reading it. *)
Definition io_error (os : OS) (file_path : string) (a : LogMetricsCollector) (e : string) : Prop :=
  match getsize os file_path with
  | Raise e' => e' = e
  | Ok size =>
      last_position file_path a < size /\
      match open_text os file_path with
      | Raise e' => e' = e
      | Ok f =>
          match f_seek f (last_position file_path a) with
          | Raise e' => e' = e
          | Ok _ => f_readlines f (last_position file_path a) = Raise e
          end
      end
  end.

(** [k] notifications in a row for the same path, the environment unchanged. *)
Fixpoint notify (os : OS) (file_path : string) (k : nat) (a : LogMetricsCollector) : LogMetricsCollector :=
  match k with
  | O => a
  | S k' => notify os file_path k' (state (process_log_file os file_path a))
  end.

(** The number of entries in the ring of the application. *)
Definition ring_size (a : LogMetricsCollector) : nat := length (log_entries (log_collector a)).

(** *** A truncation scenario

    [logs/app.log] holds two lines and is read; it is then truncated to zero
    length and one new line is appended. *)

Definition nl : string := String Disk.LF EmptyString.

Definition app_log : string := "logs/app.log".

Definition two_lines : string :=
  "[INFO] started" +:+ nl +:+ "[INFO] listening" +:+ nl.

Definition one_new_line : string := "[ERROR] disk full" +:+ nl.

Definition os_two_lines : OS :=
  Disk.os {[ app_log := two_lines ]} {[ "logs" := ["app.log"] ]} "2024-01-01T00:00:00".

Definition os_truncated : OS :=
  Disk.os {[ app_log := one_new_line ]} {[ "logs" := ["app.log"] ]} "2024-01-01T00:01:00".

Definition fresh_app : LogMetricsCollector := LogMetricsCollector_init ["logs"] 200.

(** The application after the notification for the two lines. *)
Definition after_first_read : LogMetricsCollector :=
  state (process_log_file os_two_lines app_log fresh_app).

(** An environment in which every file has 64 bytes that do not decode. *)
Definition os_undecodable : OS :=
  mkOS (fun _ => Ok 64)
       (fun _ => Ok (mkTextFile (fun _ => Ok tt) (fun _ => Raise "UnicodeDecodeError")))
       (fun _ => true)
       (fun _ => Ok ["app.log"])
       (fun _ _ => "2024-01-01T00:02:00").

(** *** A start-up scenario

    [logs/app.log] holds twelve lines when the collector starts; one more
    line is appended afterwards. *)

Fixpoint repeat_line (n : nat) (text : string) : string :=
  match n with
  | O => EmptyString
  | S n' => text +:+ nl +:+ repeat_line n' text
  end.

Definition twelve_lines : string := repeat_line 12 "[INFO] tick".

Definition os_twelve : OS :=
  Disk.os {[ app_log := twelve_lines ]} {[ "logs" := ["app.log"; "notes.txt"] ]}
    "2024-01-01T00:00:00".

Definition os_thirteen : OS :=
  Disk.os {[ app_log := twelve_lines +:+ "[ERROR] boom" +:+ nl ]}
    {[ "logs" := ["app.log"; "notes.txt"] ]} "2024-01-01T00:05:00".

Definition after_bootstrap : LogMetricsCollector :=
  state (load_existing_logs os_twelve fresh_app).

(** A computation that keeps an invariant of the application state. *)
Definition preserves {A} (P : LogMetricsCollector -> Prop) (m : M LogMetricsCollector A) : Prop :=
  forall a, P a -> P (state (m a)).

(** The states the log side of the application can be in: it is
    constructed, then scans the directories and handles notifications. *)
Inductive reachable : LogMetricsCollector -> Prop :=
| reach_init dirs n : reachable (LogMetricsCollector_init dirs n)
| reach_load os a : reachable a -> reachable (state (load_existing_logs os a))
| reach_event os event a : reachable a -> reachable (state (on_modified os event a))
| reach_process os path a : reachable a -> reachable (state (process_log_file os path a)).

(** *** Sampling *)

(** The volume [get_current_metrics] asks the disk usage of. *)
Definition root_volume {num} (h : Host num) : string :=
  if String.eqb (os_name h) "nt" then "C:" else "/".

(** The exception that leaves the outer [try] of [get_current_metrics], if
    any: the first of the CPU, core count, memory, disk and process
    queries to raise. *)
Definition outer_failure {num} (h : Host num) : option string :=
  match cpu_percent h with
  | Raise e => Some e
  | Ok _ =>
      match cpu_count h with
      | Raise e => Some e
      | Ok _ =>
          match virtual_memory h with
          | Raise e => Some e
          | Ok _ =>
              match disk_usage h (root_volume h) with
              | Raise e => Some e
              | Ok _ =>
                  match pids h with
                  | Raise e => Some e
                  | Ok _ => None
                  end
              end
          end
      end
  end.

(** A host that answers every query, with integers for the readings. *)
Definition healthy_host : Host Z :=
  mkHost "posix" (Ok 12) (Ok (Some 8))
    (Ok (mkMemory 50 4294967296 8589934592))
    (fun _ => Ok (mkDiskUsage 40 107374182400 268435456000))
    (Ok [1; 2; 3]) (Ok (mkNetIO 10 20 1 2)) "2024-01-01T00:00:05".

(** The same host with the CPU query failing, and with the network query
    failing. *)
Definition host_without_cpu : Host Z :=
  mkHost "posix" (Raise "CPU error") (Ok (Some 8))
    (Ok (mkMemory 50 4294967296 8589934592))
    (fun _ => Ok (mkDiskUsage 40 107374182400 268435456000))
    (Ok [1; 2; 3]) (Ok (mkNetIO 10 20 1 2)) "2024-01-01T00:00:10".

Definition host_without_network : Host Z :=
  mkHost "posix" (Ok 12) (Ok (Some 8))
    (Ok (mkMemory 50 4294967296 8589934592))
    (fun _ => Ok (mkDiskUsage 40 107374182400 268435456000))
    (Ok [1; 2; 3]) (Raise "not supported") "2024-01-01T00:00:15".

Definition whole_gb (b : Z) : Z := b / 1073741824.

Definition running_sampler : SystemMetrics Z := mkSystemMetrics 100 [] true.

(** ** Definitions for the further properties *)

(** What every stored entry looks like: its level is the classification of
    its message and one of the five levels; its message is not empty and has
    no white space at either end; its file name is the base name of its path. *)
Definition entry_wf (e : LogEntry) : Prop :=
  level e = classify (message e)
  /\ In (level e) levels
  /\ message e <> ""
  /\ Str.strip (message e) = message e
  /\ file e = Path.basename (full_path e).

(** A call as the tailer and the start-up scan make it: with a stripped,
    non-empty line. *)
Definition stripped_call (a : Append) : Prop :=
  Str.truthy (a_line a) = true /\ exists line, a_line a = Str.strip line.

(** The statistics agree with one another and with the ring. *)
Definition stats_consistent (c : LogCollector) : Prop :=
  stat "total_entries" c = level_counts c
  /\ Forall (fun k => 0 <= stat k c) level_keys
  /\ Z.of_nat (length (log_entries c)) <= stat "total_entries" c.

(** [drop] and [take] of a list by an integer that is not negative. *)
Definition drop_oldest {A} (n : Z) (xs : list A) : list A := drop (Z.to_nat n) xs.

(** An invariant of the collector, together with the presence of its six
    counters, as a property of the application state. *)
Definition collector_inv (Q : LogCollector -> Prop) (a : LogMetricsCollector) : Prop :=
  stats_complete (log_collector a) /\ Q (log_collector a).

(** The snapshot one sampling cycle obtains from a host, if any: the value
    [get_current_metrics] returns. *)
Definition snapshot_of {num} (gb : Z -> num) (h : Host num) : option (Snapshot num) :=
  match result (get_current_metrics gb h (SystemMetrics_init 0)) with
  | Ok (Some snap) => Some snap
  | _ => None
  end.

(** The record a sampling cycle logs for a host, if any. *)
Definition failure_log {num} (h : Host num) : list string :=
  match outer_failure h with
  | Some e => ["Error collecting metrics: " +:+ e]
  | None => []
  end.

(** The messages a list of raw lines yields: each line stripped, the blank
    ones left out. *)
Definition kept_lines (lines : list string) : list string :=
  filter (fun l => Str.truthy l = true) (map Str.strip lines).

(** The decoded lines of an ASCII text. *)
Definition text_lines (content : string) : list string :=
  Disk.split_lines EmptyString content.

(** The loop of [load_existing_logs] over a list of directories. *)
Definition scan (os : OS) (dirs : list string) : M LogMetricsCollector unit :=
  for_each 0 dirs (fun _ log_dir => load_directory os log_dir).

(** A configured directory that, if it exists, can be listed. *)
Definition listable (os : OS) (log_dir : string) : Prop :=
  path_exists os log_dir = true -> exists names, listdir os log_dir = Ok names.

(** The record [load_existing_logs] logs for a file it cannot read. *)
Definition load_error (file_path e : string) : string :=
  "Error loading " +:+ file_path +:+ ": " +:+ e.

(** A disk on which the path [logs] is a regular file. *)
Definition os_logs_is_a_file : OS :=
  Disk.os {[ "logs" := "not a directory" ]} ∅ "2024-01-01T00:00:00".

(** ** [load_config]

    JSON values, numbers being integers here.  [load_config] never looks
    inside the values of a section. *)
#[local] Unset Elimination Schemes.
Inductive json : Type :=
| JNull
| JBool (b : bool)
| JNum (n : Z)
| JStr (s : string)
| JArr (items : list json)
| JObj (members : list (string * json)).
#[local] Set Elimination Schemes.

(** The JSON values that cannot be iterated over. *)
Inductive atom : Type :=
| ANull
| ABool (b : bool)
| ANum (n : Z).

(** What a section of the configuration can hold: a JSON object, a JSON
    string, or a value that cannot be iterated over ([null], a boolean, a
    number).  A section that is a JSON array is outside the model. *)
Inductive section : Type :=
| Mapping (m : gmap string json)
| Text (s : string)
| Scalar (v : atom).

(** What [json.load] returns: an object, its members in file order (a
    Python [dict] has each key once), a string, or a value that cannot be
    iterated over.  A file holding a JSON array is outside the model. *)
Inductive config_content : Type :=
| Object (sections : list (string * section))
| TopText (s : string)
| TopScalar (v : atom).

(** [default_config] of [load_config] *)
Definition default_config : gmap string section :=
  <["api" := Mapping (<["host" := JStr "0.0.0.0"]> (<["port" := JNum 5000]>
                       (<["debug" := JBool false]> ∅)))]>
  (<["metrics" := Mapping (<["collection_interval" := JNum 10]>
                           (<["max_samples" := JNum 1000]> ∅))]>
  (<["logging" := Mapping (<["directories" := JArr [JStr "logs"]]>
                           (<["max_entries" := JNum 200]> ∅))]> ∅)).

(** [target.update(v)]; exceptions are named by their class.  A value
    without the method raises [AttributeError]; a non-empty string is a
    sequence whose first element has length 1, not 2. *)
Definition dict_update (target v : section) : exc section :=
  match target with
  | Mapping m =>
      match v with
      | Mapping m' => Ok (Mapping (m' ∪ m))
      | Text EmptyString => Ok target
      | Text _ => Raise "ValueError"
      | Scalar _ => Raise "TypeError"
      end
  | _ => Raise "AttributeError"
  end.

(** [logging.warning(msg)] *)
Definition logging_warning {S} (msg : string) : M S unit := fun s => mkRes (Ok tt) s [msg].

(** The body of [for section in user_config] for one member. *)
Definition merge_section (name : string) (v : section) : M (gmap string section) unit :=
  cfg ← gets (fun cfg : gmap string section => cfg);
  match cfg !! name with
  | Some target =>
      updated ← call (dict_update target v);
      modify (fun cfg : gmap string section => <[name := updated]> cfg)
  | None => modify (fun cfg : gmap string section => <[name := v]> cfg)
  end.

Definition merge_sections (sections : list (string * section)) : M (gmap string section) unit :=
  for_each 0 sections (fun _ member => merge_section (fst member) (snd member)).

(** The loop over [user_config].  Iterating over a non-empty string gives
    its first character, with which [user_config] cannot be indexed;
    [null], booleans and numbers cannot be iterated over. *)
Definition merge_config (user_config : config_content) : M (gmap string section) unit :=
  match user_config with
  | Object sections => merge_sections sections
  | TopText EmptyString => mret tt
  | TopText _ => raise "TypeError"
  | TopScalar _ => raise "TypeError"
  end.

(** [load_config(config_file)]: [file_exists] is [os.path.exists(config_file)]
    and [loaded] is what opening and parsing the file gives.  The state of
    the computation is the dictionary [default_config], which is returned. *)
Definition load_config_body (config_file : string) (file_exists : bool)
           (loaded : exc config_content) : M (gmap string section) unit :=
  if file_exists then
    try_except
      (user_config ← call loaded; merge_config user_config)
      (fun e => logging_warning ("Error loading config file " +:+ config_file +:+ ": " +:+ e))
  else mret tt.

Definition load_config (config_file : string) (file_exists : bool)
           (loaded : exc config_content) : gmap string section :=
  state (load_config_body config_file file_exists loaded default_config).

Definition load_config_warnings (config_file : string) (file_exists : bool)
           (loaded : exc config_content) : list string :=
  logged (load_config_body config_file file_exists loaded default_config).

(** The value the merge gives a section: the user's object over the
    default's, or the user's value alone for a section without default. *)
Definition merged (old : option section) (v : section) : section :=
  match old, v with
  | Some (Mapping m), Mapping m' => Mapping (m' ∪ m)
  | _, _ => v
  end.

(** A member the loop can merge into [cfg]: a new section, or an object
    for a section that holds an object. *)
Definition mergeable (cfg : gmap string section) (member : string * section) : Prop :=
  match cfg !! fst member with
  | None => True
  | Some (Mapping _) => match snd member with Mapping _ => True | _ => False end
  | Some _ => False
  end.

(** The first member with the given name. *)
Fixpoint assoc (name : string) (sections : list (string * section)) : option section :=
  match sections with
  | [] => None
  | (n, v) :: rest => if String.eqb n name then Some v else assoc name rest
  end.

(** A section value that makes [update] raise. *)
Definition not_a_mapping (v : section) : Prop :=
  match v with
  | Mapping _ => False
  | Text EmptyString => False
  | _ => True
  end.

(** The key [key] is present in the section [name] of a configuration. *)
Definition has_setting (cfg : gmap string section) (name key : string) : Prop :=
  exists m, cfg !! name = Some (Mapping m) /\ is_Some (m !! key).

Definition default_settings : list (string * string) :=
  [("api", "host"); ("api", "port"); ("api", "debug");
   ("metrics", "collection_interval"); ("metrics", "max_samples");
   ("logging", "directories"); ("logging", "max_entries")].

(** ** [LogMetricsCollector.start_log_monitoring]

    The file system is a value of an abstract type [FS] with the two
    operations the method uses; the observer is the list of the paths
    scheduled on it and a flag that it was started.  [file_observer.start()]
    is taken to succeed. *)
Record Monitor (FS : Type) : Type := mkMonitor {
  disk : FS;
  watches : list string;
  started : bool
}.
Arguments mkMonitor {FS}.
Arguments disk {FS}.
Arguments watches {FS}.
Arguments started {FS}.

Section Monitoring.
Context {FS : Type}.
(** [os.path.exists] and [os.makedirs(path, exist_ok=True)] *)
Variable fs_exists : FS -> string -> bool.
Variable fs_makedirs : FS -> string -> exc FS.

(** The body of the loop for one configured directory. *)
Definition watch_directory (log_dir : string) : M (Monitor FS) unit :=
  fs ← gets disk;
  if fs_exists fs log_dir then
    modify (fun mon => mkMonitor (disk mon) (watches mon ++ [log_dir]) (started mon))
  else
    fs' ← call (fs_makedirs fs log_dir);
    modify (fun mon => mkMonitor fs' (watches mon) (started mon)).

Definition start_log_monitoring (dirs : list string) : M (Monitor FS) unit :=
  for_each 0 dirs (fun _ log_dir => watch_directory log_dir);;
  modify (fun mon => mkMonitor (disk mon) (watches mon) true).
End Monitoring.

(** A file system that is the set of its directories, creating one
    directory at a time. *)
Definition flat_exists (fs : gset string) (path : string) : bool := bool_decide (path ∈ fs).
Definition flat_makedirs (fs : gset string) (path : string) : exc (gset string) :=
  Ok ({[ path ]} ∪ fs).

(** ** The route [/metrics]

    [current_param] is the text of the query parameter [current] when it is
    given, [limit_param] the value of [limit] when it is given and an
    integer.  With [type=bool] the text is converted by [bool], which is
    true for every non-empty string. *)
Inductive Response (num : Type) : Type :=
| MetricsResponse (status : Z) (metrics : list (Snapshot num)) (count : nat) (kind : string)
| ErrorResponse (status : Z) (error : string).
Arguments MetricsResponse {num}.
Arguments ErrorResponse {num}.

Definition get_metrics {num} (gb : Z -> num) (current_param : option string)
           (limit_param : option Z) (h : Host num) : M (SystemMetrics num) (Response num) :=
  try_except
    (let limit := limit_param in
     let current_only :=
       match current_param with Some text => Str.truthy text | None => false end in
     if current_only then
       current_metrics ← get_current_metrics gb h;
       match current_metrics with
       | Some m => mret (MetricsResponse 200 [m] 1 "current")
       | None => mret (ErrorResponse 500 "Could not collect current metrics")
       end
     else
       metrics ← gets (get_metrics_history (Given limit));
       mret (MetricsResponse 200 metrics (length metrics) "historical"))
    (fun e =>
       logging_error ("Error in /metrics endpoint: " +:+ e);;
       mret (ErrorResponse 500 "Internal server error")).

(** * Properties *)

(** ** Characters and strings *)

Lemma lower_char_idem c : Str.lower_char (Str.lower_char c) = Str.lower_char c.
Proof. destruct c as [[] [] [] [] [] [] [] []]; reflexivity. Qed.

Lemma upper_lower_char c : Str.upper_char (Str.lower_char c) = Str.upper_char c.
Proof. destruct c as [[] [] [] [] [] [] [] []]; reflexivity. Qed.

Lemma upper_char_of_lower_eq a b :
  Str.lower_char a = Str.lower_char b -> Str.upper_char a = Str.upper_char b.
Proof.
  intros H. rewrite <- (upper_lower_char a), <- (upper_lower_char b). now rewrite H.
Qed.

Lemma str_drop_length w s :
  (String.length w <= String.length s)%nat ->
  String.length (Str.drop (String.length w) s) = (String.length s - String.length w)%nat.
Proof.
  revert s. induction w as [|a w IH]; intros s Hle; simpl in *.
  - lia.
  - destruct s as [|b s]; simpl in *; [lia|]. apply IH. lia.
Qed.

Lemma ci_prefix_length w s : ci_prefix w s = true -> (String.length w <= String.length s)%nat.
Proof.
  revert s. induction w as [|a w IH]; intros [|b s] H; simpl in *; try lia; try discriminate.
  apply andb_true_iff in H as [_ H]. apply IH in H. lia.
Qed.

(** The text a word matches has the upper-case form of the word. *)
Lemma ci_prefix_upper w s :
  ci_prefix w s = true -> Str.upper (Str.take (String.length w) s) = Str.upper w.
Proof.
  revert s. induction w as [|a w IH]; intros [|b s] H; simpl in *; try reflexivity; try discriminate.
  apply andb_true_iff in H as [Hc H].
  apply Ascii.eqb_eq in Hc. unfold Str.upper in *. simpl.
  rewrite (IH _ H). f_equal. symmetry. now apply upper_char_of_lower_eq.
Qed.

(** Matching ignores the letter case of the line. *)
Lemma ci_prefix_lower w s : ci_prefix w (Str.lower s) = ci_prefix w s.
Proof.
  unfold Str.lower.
  revert s. induction w as [|a w IH]; intros [|b s]; simpl; try reflexivity.
  now rewrite lower_char_idem, IH.
Qed.

Lemma contains_ci_lower w s : contains_ci w (Str.lower s) = contains_ci w s.
Proof.
  induction s as [|b s IH].
  - reflexivity.
  - change (Str.lower (String b s)) with (String (Str.lower_char b) (Str.lower s)).
    cbn [contains_ci]. rewrite IH. f_equal.
    apply (ci_prefix_lower w (String b s)).
Qed.

Lemma has_token_lower ws s : has_token ws (Str.lower s) = has_token ws s.
Proof.
  unfold has_token. induction ws as [|w ws IH]; simpl; [reflexivity|].
  now rewrite contains_ci_lower, IH.
Qed.

Lemma classify_lower s : classify (Str.lower s) = classify s.
Proof. unfold classify. now rewrite !has_token_lower. Qed.

Lemma classify_levels line : In (classify line) levels.
Proof.
  unfold classify, levels.
  repeat match goal with |- context [if ?b then _ else _] => destruct b end;
    simpl; tauto.
Qed.

(** ** The matcher on the level patterns *)

Section LevelPatterns.

Lemma rmatch_word {A} w s g (k : string -> option string -> option A) :
  Re.rmatch true (Re.word w) s g k
  = if ci_prefix w s then k (Str.drop (String.length w) s) g else None.
Proof.
  revert s. induction w as [|a w IH]; intros s; simpl.
  - reflexivity.
  - destruct s as [|b s]; [reflexivity|].
    unfold Re.chr_eq. destruct (Ascii.eqb _ _); simpl; [apply IH|reflexivity].
Qed.

Lemma rmatch_alts {A} ws s g (k : string -> option string -> option A) :
  ws <> [] ->
  (forall s' g', k s' g' <> None) ->
  Re.rmatch true (Re.alts ws) s g k
  = match first_alt ws s with
    | Some w => k (Str.drop (String.length w) s) g
    | None => None
    end.
Proof.
  intros Hne Hk. induction ws as [|w ws IH]; [congruence|].
  destruct ws as [|w' ws].
  - cbn [Re.alts first_alt List.find]. rewrite rmatch_word.
    destruct (ci_prefix w s); reflexivity.
  - change (Re.alts (w :: w' :: ws)) with (Re.Alt (Re.word w) (Re.alts (w' :: ws))).
    cbn [Re.rmatch]. rewrite rmatch_word.
    unfold first_alt in *. cbn [List.find].
    destruct (ci_prefix w s).
    + destruct (k _ g) eqn:E; [reflexivity|]. now apply Hk in E.
    + apply IH. discriminate.
Qed.

Lemma rmatch_body ws s g :
  ws <> [] ->
  Re.rmatch true (body ws) s g Re.accept
  = match first_alt ws s with
    | Some w => Some (Re.Build_Match (Some (Str.take (String.length w) s)))
    | None => None
    end.
Proof.
  intros Hne. unfold body. cbn [Re.rmatch].
  rewrite rmatch_alts; [|assumption|].
  - destruct (first_alt ws s) as [w|] eqn:E; [|reflexivity].
    apply List.find_some in E as [_ E].
    pose proof (ci_prefix_length _ _ E) as Hlen.
    rewrite str_drop_length by assumption.
    replace (String.length s - (String.length s - String.length w))%nat
      with (String.length w) by lia.
    destruct (Str.drop (String.length w) s) as [|c r]; [reflexivity|].
    destruct (Re.chr_eq true "]" c); reflexivity.
  - intros s' g'. destruct s' as [|c r]; [discriminate|].
    destruct (Re.chr_eq true "]" c); discriminate.
Qed.

Lemma match_here_pattern ws s :
  ws <> [] ->
  Re.match_here true (level_pattern ws) s
  = match s with
    | String c s' =>
        if Re.chr_eq true "[" c
        then match Re.rmatch true (body ws) s' None Re.accept with
             | Some m => Some m
             | None => Re.rmatch true (body ws) s None Re.accept
             end
        else Re.rmatch true (body ws) s None Re.accept
    | EmptyString => Re.rmatch true (body ws) s None Re.accept
    end.
Proof.
  intros Hne. unfold Re.match_here, level_pattern.
  change (Re.Cat (Re.Group (Re.alts ws)) (Re.Opt (Re.Lit "]"))) with (body ws).
  cbn [Re.rmatch].
  destruct s as [|c s']; [reflexivity|].
  destruct (Re.chr_eq true "[" c); reflexivity.
Qed.

Lemma first_alt_none ws s :
  first_alt ws s = None -> forall w, In w ws -> ci_prefix w s = false.
Proof.
  intros H w Hw. unfold first_alt in H.
  pose proof (List.find_none _ _ H w Hw) as Hn. exact Hn.
Qed.

Lemma first_alt_some ws s w :
  first_alt ws s = Some w -> In w ws /\ ci_prefix w s = true.
Proof. intros H. now apply List.find_some in H. Qed.

(** A match at the head of [s]: some word of the pattern occurs in [s], and
    the group holds a text with the upper-case form of that word. *)
Lemma match_here_some ws s m :
  ws <> [] ->
  Re.match_here true (level_pattern ws) s = Some m ->
  exists w g, In w ws /\ contains_ci w s = true
              /\ Re.group1 m = Some g /\ Str.upper g = Str.upper w.
Proof.
  intros Hne. rewrite match_here_pattern by assumption.
  assert (Hbody : forall t, Re.rmatch true (body ws) t None Re.accept = Some m ->
            exists w g, In w ws /\ ci_prefix w t = true
                        /\ Re.group1 m = Some g /\ Str.upper g = Str.upper w).
  { intros t. rewrite rmatch_body by assumption.
    destruct (first_alt ws t) as [w|] eqn:E; [|discriminate].
    intros [= <-]. apply first_alt_some in E as [Hin Hp].
    exists w, (Str.take (String.length w) t). repeat split; try assumption.
    now apply ci_prefix_upper. }
  assert (Hhead : forall t, Re.rmatch true (body ws) t None Re.accept = Some m ->
            exists w g, In w ws /\ contains_ci w t = true
                        /\ Re.group1 m = Some g /\ Str.upper g = Str.upper w).
  { intros t Ht. destruct (Hbody t Ht) as (w & g & Hin & Hp & Hg & Hu).
    exists w, g. repeat split; try assumption.
    destruct t; simpl in *; rewrite Hp; reflexivity. }
  destruct s as [|c s']; [apply Hhead|].
  destruct (Re.chr_eq true "[" c); [|apply Hhead].
  destruct (Re.rmatch true (body ws) s' None Re.accept) as [m'|] eqn:E; [|apply Hhead].
  intros [= ->]. destruct (Hhead s' E) as (w & g & Hin & Hp & Hg & Hu).
  exists w, g. repeat split; try assumption.
  cbn [contains_ci]. rewrite Hp. apply orb_true_r.
Qed.

Lemma match_here_none ws s :
  ws <> [] ->
  Re.match_here true (level_pattern ws) s = None ->
  forall w, In w ws -> ci_prefix w s = false.
Proof.
  intros Hne. rewrite match_here_pattern by assumption.
  assert (Hbody : Re.rmatch true (body ws) s None Re.accept = None ->
                  forall w, In w ws -> ci_prefix w s = false).
  { rewrite rmatch_body by assumption.
    destruct (first_alt ws s) eqn:E; [discriminate|].
    intros _. now apply first_alt_none. }
  destruct s as [|c s']; [exact Hbody|].
  destruct (Re.chr_eq true "[" c); [|exact Hbody].
  destruct (Re.rmatch true (body ws) s' None Re.accept); [discriminate|exact Hbody].
Qed.

Lemma search_some ws s m :
  ws <> [] ->
  Re.search true (level_pattern ws) s = Some m ->
  exists w g, In w ws /\ contains_ci w s = true
              /\ Re.group1 m = Some g /\ Str.upper g = Str.upper w.
Proof.
  intros Hne. induction s as [|c s IH]; cbn [Re.search].
  - destruct (Re.match_here _ _ _) eqn:E; [|discriminate].
    intros [= ->]. now apply match_here_some.
  - destruct (Re.match_here true (level_pattern ws) (String c s)) eqn:E.
    + intros [= ->]. now apply match_here_some.
    + intros H. destruct (IH H) as (w & g & Hin & Hc & Hg & Hu).
      exists w, g. repeat split; try assumption.
      cbn [contains_ci]. rewrite Hc. apply orb_true_r.
Qed.

Lemma search_none ws s :
  ws <> [] ->
  Re.search true (level_pattern ws) s = None -> has_token ws s = false.
Proof.
  intros Hne H.
  assert (Hw : forall w, In w ws -> contains_ci w s = false).
  { induction s as [|c s IH]; cbn [Re.search] in H; intros w Hin.
    - destruct (Re.match_here _ _ _) eqn:E; [discriminate|].
      cbn [contains_ci]. rewrite (match_here_none _ _ Hne E w Hin). reflexivity.
    - destruct (Re.match_here true (level_pattern ws) (String c s)) eqn:E; [discriminate|].
      cbn [contains_ci]. rewrite (match_here_none _ _ Hne E w Hin).
      now apply IH. }
  unfold has_token. clear H Hne. induction ws as [|w ws IH]; [reflexivity|].
  simpl. rewrite (Hw w) by now left. apply IH. intros w' Hin. apply Hw. now right.
Qed.

End LevelPatterns.

(** ** The severity classifier *)

Lemma has_token_true ws w s : In w ws -> contains_ci w s = true -> has_token ws s = true.
Proof.
  intros Hin Hc. unfold has_token. apply existsb_exists. now exists w.
Qed.

Lemma ci_prefix_app w post : ci_prefix w (w +:+ post) = true.
Proof.
  induction w as [|a w IH]; simpl; [reflexivity|].
  now rewrite Ascii.eqb_refl, IH.
Qed.

Lemma contains_ci_app pre w post : contains_ci w (pre +:+ w +:+ post) = true.
Proof.
  induction pre as [|c pre IH].
  - change (EmptyString +:+ w +:+ post) with (w +:+ post).
    destruct (w +:+ post) eqn:E; cbn [contains_ci]; rewrite <- E, ci_prefix_app; reflexivity.
  - change (String c pre +:+ w +:+ post) with (String c (pre +:+ w +:+ post)).
    cbn [contains_ci]. rewrite IH. apply orb_true_r.
Qed.

(** The function of the source computes the classifier of the specification
    and never raises. *)
Lemma extract_classify line : extract_log_level line = Ok (classify line).
Proof.
  unfold extract_log_level, patterns, classify. cbn [extract_loop].
  destruct (Re.search true (level_pattern ["ERROR"; "CRITICAL"; "FATAL"]) line) eqn:E1.
  { apply search_some in E1 as (w & g & Hin & Hc & Hg & Hu); [|discriminate].
    rewrite Hg, Hu, (has_token_true _ _ _ Hin Hc).
    simpl in Hin. destruct Hin as [ <- | [ <- | [ <- | [] ] ] ]; reflexivity. }
  apply search_none in E1; [|discriminate]. rewrite E1.
  destruct (Re.search true (level_pattern ["WARN"; "WARNING"]) line) eqn:E2.
  { apply search_some in E2 as (w & g & Hin & Hc & Hg & Hu); [|discriminate].
    rewrite Hg, Hu, (has_token_true _ _ _ Hin Hc).
    simpl in Hin. destruct Hin as [ <- | [ <- | [] ] ]; reflexivity. }
  apply search_none in E2; [|discriminate]. rewrite E2.
  destruct (Re.search true (level_pattern ["INFO"; "INFORMATION"]) line) eqn:E3.
  { apply search_some in E3 as (w & g & Hin & Hc & Hg & Hu); [|discriminate].
    rewrite Hg, Hu, (has_token_true _ _ _ Hin Hc).
    simpl in Hin. destruct Hin as [ <- | [ <- | [] ] ]; reflexivity. }
  apply search_none in E3; [|discriminate]. rewrite E3.
  destruct (Re.search true (level_pattern ["DEBUG"; "TRACE"]) line) eqn:E4.
  { apply search_some in E4 as (w & g & Hin & Hc & Hg & Hu); [|discriminate].
    rewrite Hg, Hu, (has_token_true _ _ _ Hin Hc).
    simpl in Hin. destruct Hin as [ <- | [ <- | [] ] ]; reflexivity. }
  apply search_none in E4; [|discriminate]. rewrite E4.
  reflexivity.
Qed.

Example extract_order :
  extract_log_level "debug: info about a warning before the error" = Ok "ERROR".
Proof. vm_compute. reflexivity. Qed.

Example extract_brackets : extract_log_level "[warn] [trace] x" = Ok "WARNING".
Proof. vm_compute. reflexivity. Qed.



(** ** The bounded log store *)

Lemma deque_append_lastn {A} (n : nat) (l : list A) (x : A) :
  deque_append n (lastn n l) x = lastn n (l ++ [x]).
Proof.
  unfold deque_append, lastn.
  rewrite !length_app, length_drop. cbn [length].
  destruct (Nat.ltb_spec n (length l - (length l - n) + 1)) as [Hlt|Hge].
  - assert (Hn : (n <= length l)%nat) by lia.
    replace (length l + 1 - n)%nat with (S (length l - n)) by lia.
    destruct (decide (n = 0)%nat) as [->|Hn0].
    + rewrite Nat.sub_0_r, drop_all. cbn [app tail].
      rewrite drop_ge; [reflexivity|]. rewrite length_app. cbn [length]. lia.
    + rewrite (drop_app_le l [x] (S (length l - n))) by lia.
      replace (S (length l - n)) with (length l - n + 1)%nat by lia.
      rewrite <- (drop_drop l 1 (length l - n)).
      destruct (drop (length l - n) l) as [|y ys] eqn:E.
      * apply (f_equal length) in E. rewrite length_drop in E. cbn [length] in E. lia.
      * reflexivity.
  - replace (length l - n)%nat with 0%nat by lia.
    replace (length l + 1 - n)%nat with 0%nat by lia.
    reflexivity.
Qed.

Lemma bump_lookup key k stats :
  default 0 (bump key stats !! k)
  = default 0 (stats !! k)
    + (if decide (key = k) then if stats !! key is Some _ then 1 else 0 else 0).
Proof.
  unfold bump. destruct (stats !! key) as [n|] eqn:E.
  - destruct (decide (key = k)) as [<-|Hne].
    + rewrite lookup_insert_eq, E. simpl. lia.
    + rewrite lookup_insert_ne by assumption. lia.
  - destruct (decide (key = k)); lia.
Qed.

Lemma bump_is_Some key k stats : is_Some (bump key stats !! k) <-> is_Some (stats !! k).
Proof.
  unfold bump. destruct (stats !! key) as [n|] eqn:E; [|reflexivity].
  destruct (decide (key = k)) as [<-|Hne].
  - rewrite lookup_insert_eq, E. split; eauto.
  - now rewrite lookup_insert_ne.
Qed.

(** Unfolding of the monad operations in a goal. *)
Create HintDb run discriminated.
#[local] Hint Unfold mbind M_bind bind mret M_ret ret raise call gets modify
  logging_error try_except zoom set_log_entries set_log_stats set_log_collector
  set_file_positions : run.

Ltac run :=
  repeat progress
    (autounfold with run;
     cbn beta iota zeta delta
       [result state logged max_entries log_entries log_stats directories
        log_collector file_positions level a_now a_path a_line]).

(** A call of [add_log_entry] on a collector that has its total counter
    returns, and leaves the collector [store] describes. *)
Lemma add_log_entry_ok now path line c :
  is_Some (log_stats c !! "total_entries") ->
  add_log_entry now path line c = mkRes (Ok tt) (store (mkAppend now path line) c) [].
Proof.
  intros [n Hn].
  unfold add_log_entry, stats_incr, store, entry_of, bump. run.
  rewrite extract_classify. run.
  rewrite Hn. run.
  set (key := Str.lower (classify line) +:+ "_count").
  destruct (decide (is_Some (<["total_entries":=n + 1]> (log_stats c) !! key))) as [[v Hv]|Hnone].
  - run. rewrite Hv. reflexivity.
  - destruct (<["total_entries":=n + 1]> (log_stats c) !! key) eqn:E.
    + exfalso. apply Hnone. eauto.
    + reflexivity.
Qed.

Lemma store_complete a c : stats_complete c -> stats_complete (store a c).
Proof.
  intros H k Hk. unfold store. cbn [log_stats].
  apply bump_is_Some, bump_is_Some. now apply H.
Qed.

Lemma store_max_entries a c : max_entries (store a c) = max_entries c.
Proof. reflexivity. Qed.

Lemma store_all_complete calls c : stats_complete c -> stats_complete (store_all calls c).
Proof.
  revert c. induction calls as [|a calls IH]; intros c H; [exact H|].
  apply IH. now apply store_complete.
Qed.

Lemma store_all_max_entries calls c : max_entries (store_all calls c) = max_entries c.
Proof.
  revert c. induction calls as [|a calls IH]; intros c; [reflexivity|].
  cbn [store_all fold_left]. fold (store_all calls (store a c)). now rewrite IH.
Qed.

Lemma store_all_snoc calls a c : store_all (calls ++ [a]) c = store a (store_all calls c).
Proof. unfold store_all. now rewrite fold_left_app. Qed.

Lemma init_complete n : stats_complete (LogCollector_init n).
Proof.
  intros k Hk. unfold stat_keys in Hk. simpl in Hk.
  destruct Hk as [ <- | [ <- | [ <- | [ <- | [ <- | [ <- | [] ] ] ] ] ] ];
    vm_compute; eauto.
Qed.

Lemma complete_total c : stats_complete c -> is_Some (log_stats c !! "total_entries").
Proof. intros H. apply H. unfold stat_keys. simpl. tauto. Qed.

(** Every sequence of calls on a collector with its six counters returns. *)
Lemma add_all_ok calls c :
  stats_complete c ->
  add_all calls c = mkRes (Ok tt) (store_all calls c) [].
Proof.
  unfold add_all. generalize 0%nat as i.
  revert c. induction calls as [|a calls IH]; intros c i H; [reflexivity|].
  cbn [for_each]. unfold bind at 1.
  rewrite add_log_entry_ok by now apply complete_total.
  cbn [result state logged]. rewrite IH by now apply store_complete.
  destruct a; reflexivity.
Qed.

Lemma count_key_level line : In (count_key line) level_keys.
Proof.
  unfold count_key. pose proof (classify_levels line) as H.
  unfold levels in H. simpl in H.
  destruct H as [ <- | [ <- | [ <- | [ <- | [ <- | [] ] ] ] ] ]; vm_compute; tauto.
Qed.

Lemma level_keys_stat_keys k : In k level_keys -> In k stat_keys.
Proof. unfold level_keys, stat_keys. simpl. tauto. Qed.

Ltac decide_strings :=
  repeat match goal with
    | |- context [decide (?a = ?b)] =>
        destruct (decide (a = b)) as [?H|?H]; [try discriminate|try congruence]
    end.

(** A stored call adds one to the total and one to the counter of its level,
    and touches no other counter. *)
Lemma stat_store a c k :
  stats_complete c ->
  stat k (store a c)
  = stat k c + (if decide ("total_entries" = k) then 1 else 0)
    + (if decide (count_key (a_line a) = k) then 1 else 0).
Proof.
  intros Hc. unfold stat, get_log_stats, store. cbn [log_stats].
  fold (count_key (a_line a)). rewrite !bump_lookup.
  destruct (complete_total c Hc) as [n ->].
  assert (Hk : is_Some (bump "total_entries" (log_stats c) !! count_key (a_line a))).
  { apply bump_is_Some, Hc, level_keys_stat_keys, count_key_level. }
  destruct Hk as [v ->]. lia.
Qed.

Lemma total_store a c :
  stats_complete c -> stat "total_entries" (store a c) = stat "total_entries" c + 1.
Proof.
  intros Hc. rewrite stat_store by assumption.
  pose proof (count_key_level (a_line a)) as Hk. unfold level_keys in Hk. simpl in Hk.
  destruct Hk as [ <- | [ <- | [ <- | [ <- | [ <- | [] ] ] ] ] ]; decide_strings; lia.
Qed.

Lemma level_counts_store a c :
  stats_complete c -> level_counts (store a c) = level_counts c + 1.
Proof.
  intros Hc. unfold level_counts. rewrite !stat_store by assumption.
  pose proof (count_key_level (a_line a)) as Hk. unfold level_keys in Hk. simpl in Hk.
  destruct Hk as [ <- | [ <- | [ <- | [ <- | [ <- | [] ] ] ] ] ]; decide_strings; lia.
Qed.

Lemma total_store_all calls c :
  stats_complete c ->
  stat "total_entries" (store_all calls c)
  = stat "total_entries" c + Z.of_nat (length calls).
Proof.
  intros Hc. induction calls as [|a calls IH] using rev_ind.
  - cbn. lia.
  - rewrite store_all_snoc, total_store by now apply store_all_complete.
    rewrite IH, length_app. cbn [length]. lia.
Qed.

Lemma level_counts_store_all calls c :
  stats_complete c ->
  level_counts (store_all calls c) = level_counts c + Z.of_nat (length calls).
Proof.
  intros Hc. induction calls as [|a calls IH] using rev_ind.
  - cbn. lia.
  - rewrite store_all_snoc, level_counts_store by now apply store_all_complete.
    rewrite IH, length_app. cbn [length]. lia.
Qed.

Lemma entries_store_all calls n :
  log_entries (store_all calls (LogCollector_init n)) = lastn n (map entry_of calls).
Proof.
  induction calls as [|a calls IH] using rev_ind.
  - reflexivity.
  - rewrite store_all_snoc. unfold store. cbn [log_entries].
    rewrite store_all_max_entries, IH. cbn [LogCollector_init max_entries].
    rewrite map_app. apply deque_append_lastn.
Qed.

Lemma length_lastn {A} n (l : list A) : length (lastn n l) = Nat.min n (length l).
Proof. unfold lastn. rewrite length_drop. lia. Qed.

Example ring_of_two :
  map message
    (log_entries (state (add_all [mkAppend "t1" "/var/log/a.log" "[INFO] a";
                                  mkAppend "t2" "/var/log/a.log" "[ERROR] b";
                                  mkAppend "t3" "/var/log/a.log" "plain text"]
                           (LogCollector_init 2))))
  = ["[ERROR] b"; "plain text"].
Proof. vm_compute. reflexivity. Qed.

(** C5.  Every sequence of appends to a fresh store of capacity [C] returns;
    the store then holds exactly the last [C] entries built by the calls, in
    insertion order (all of them while there are at most [C]), so exactly [C]
    entries once the appends exceed the capacity; [total_entries] equals the
    number of appends, and one more append raises it by one whatever the
    store evicts, so it never decreases. *)
Theorem ring_keeps_last_and_counts_all (C : nat) (calls : list Append) :
  let r := add_all calls (LogCollector_init C) in
  result r = Ok tt
  /\ log_entries (state r) = lastn C (map entry_of calls)
  /\ length (log_entries (state r)) = Nat.min C (length calls)
  /\ stat "total_entries" (state r) = Z.of_nat (length calls)
  /\ (forall a,
        let r' := add_log_entry (a_now a) (a_path a) (a_line a) (state r) in
        result r' = Ok tt
        /\ stat "total_entries" (state r') = stat "total_entries" (state r) + 1
        /\ log_entries (state r') = lastn C (map entry_of (calls ++ [a]))).
Proof.
  cbn zeta. rewrite add_all_ok by apply init_complete. cbn [result state].
  pose proof (store_all_complete calls _ (init_complete C)) as Hc.
  split; [reflexivity|].
  split; [apply entries_store_all|].
  split. { rewrite entries_store_all, length_lastn, length_map. reflexivity. }
  split. { rewrite total_store_all by apply init_complete. reflexivity. }
  intros a. rewrite add_log_entry_ok by now apply complete_total.
  cbn [result state]. split; [reflexivity|].
  replace {| a_now := a_now a; a_path := a_path a; a_line := a_line a |} with a
    by now destruct a.
  split; [now apply total_store|].
  rewrite <- store_all_snoc. apply entries_store_all.
Qed.

(** C10.  After every sequence of [add_log_entry] calls on a fresh store the
    calls have all returned and [total_entries] equals the sum of the five
    level counters; one more call adds one to the total and one to that sum. *)
Theorem total_is_sum_of_level_counts (C : nat) (calls : list Append) :
  let r := add_all calls (LogCollector_init C) in
  result r = Ok tt
  /\ stat "total_entries" (state r) = level_counts (state r)
  /\ (forall a,
        let r' := add_log_entry (a_now a) (a_path a) (a_line a) (state r) in
        stat "total_entries" (state r') = stat "total_entries" (state r) + 1
        /\ level_counts (state r') = level_counts (state r) + 1
        /\ In (count_key (a_line a)) level_keys
        /\ Forall (fun k =>
                     stat k (state r')
                     = stat k (state r)
                       + (if decide (count_key (a_line a) = k) then 1 else 0))
             level_keys).
Proof.
  cbn zeta. rewrite add_all_ok by apply init_complete. cbn [result state].
  pose proof (store_all_complete calls _ (init_complete C)) as Hc.
  split; [reflexivity|].
  split.
  { rewrite total_store_all, level_counts_store_all by apply init_complete.
    reflexivity. }
  intros a. rewrite add_log_entry_ok by now apply complete_total.
  cbn [result state].
  replace {| a_now := a_now a; a_path := a_path a; a_line := a_line a |} with a
    by now destruct a.
  split; [now apply total_store|].
  split; [now apply level_counts_store|].
  split; [apply count_key_level|].
  apply Forall_forall. intros k Hin. rewrite stat_store by assumption.
  apply list_elem_of_In in Hin. unfold level_keys in Hin. simpl in Hin.
  destruct Hin as [ <- | [ <- | [ <- | [ <- | [ <- | [] ] ] ] ] ];
    destruct (decide ("total_entries" = _)) as [?|_]; try discriminate; lia.
Qed.

(** ** The recent-logs query *)

Lemma slice_from_neg {A} (n : Z) (l : list A) :
  0 < n -> slice_from (- n) l = lastn (Z.to_nat n) l.
Proof.
  intros Hn. unfold slice_from, lastn.
  destruct (Z.ltb_spec (- n) 0) as [_|H]; [|lia].
  f_equal. lia.
Qed.

Lemma recent_logs_filtered limit lf c :
  recent_logs limit lf c
  = match limit with
    | Some n => if n =? 0 then ring_filtered lf c else slice_from (- n) (ring_filtered lf c)
    | None => ring_filtered lf c
    end.
Proof. unfold recent_logs, ring_filtered. destruct lf as [f|]; reflexivity. Qed.

Lemma ring_filtered_sublist lf c : ring_filtered lf c `sublist_of` log_entries c.
Proof.
  unfold ring_filtered. destruct lf as [f|]; [|reflexivity].
  destruct (Str.truthy f); [apply sublist_filter|reflexivity].
Qed.

Lemma ring_filtered_level f c e :
  f <> "" -> e ∈ ring_filtered (Some f) c -> level e = Str.upper f.
Proof.
  intros Hf. unfold ring_filtered. destruct f; [congruence|]. cbn [Str.truthy].
  intros He. now apply list_elem_of_filter in He as [He _].
Qed.

Example default_limit_is_ten :
  length (log_entries (store_of 200 (numbered 11 "[INFO] tick"))) = 11%nat
  /\ length (get_recent_logs Omitted Omitted (store_of 200 (numbered 11 "[INFO] tick"))) = 10%nat.
Proof. vm_compute. split; reflexivity. Qed.

(** C3 as it is stated fails: a query without a limit on a store of eleven
    entries returns ten of them. *)
Lemma recent_logs_without_limit_truncates :
  ~ (forall c level_filter,
       get_recent_logs Omitted level_filter c = ring_filtered (arg_or None level_filter) c).
Proof.
  intros H.
  specialize (H (store_of 200 (numbered 11 "[INFO] tick")) Omitted).
  apply (f_equal length) in H. vm_compute in H. discriminate H.
Qed.

(** C3, amended.  A query without a limit uses the default limit 10: it
    returns the last ten entries of the (possibly filtered) ring contents,
    which are all of them when there are at most ten.  All entries are
    returned when the limit is passed as [None] (or as 0). *)
Theorem recent_logs_default_limit (c : LogCollector) (level_filter : arg (option string)) :
  let selected := ring_filtered (arg_or None level_filter) c in
  get_recent_logs Omitted level_filter c = lastn 10 selected
  /\ ((length selected <= 10)%nat -> get_recent_logs Omitted level_filter c = selected)
  /\ get_recent_logs (Given None) level_filter c = selected
  /\ get_recent_logs (Given (Some 0)) level_filter c = selected.
Proof.
  cbn zeta. unfold get_recent_logs. cbn [arg_or]. rewrite !recent_logs_filtered.
  change (10 =? 0) with false. change (0 =? 0) with true. cbv iota.
  rewrite (slice_from_neg 10) by lia. change (Z.to_nat 10) with 10%nat.
  split; [reflexivity|]. split; [|split; reflexivity].
  intros Hlen. unfold lastn. replace (_ - 10)%nat with 0%nat by lia. reflexivity.
Qed.

Lemma recent_logs_default_limit_witness :
  get_recent_logs Omitted (Given (Some "error")) (store_of 200 (numbered 3 "[ERROR] x"))
  = ring_filtered (Some "error") (store_of 200 (numbered 3 "[ERROR] x")).
Proof.
  destruct (recent_logs_default_limit (store_of 200 (numbered 3 "[ERROR] x"))
              (Given (Some "error"))) as (_ & Hall & _).
  apply Hall. vm_compute. lia.
Defined.

Example filter_before_tail :
  map message (get_recent_logs (Given (Some 2)) (Given (Some "error"))
                 (store_of 200 error_then_infos)) = ["[ERROR] a"]
  /\ tail_then_filter 2 "error" (store_of 200 error_then_infos) = [].
Proof. vm_compute. split; reflexivity. Qed.

(** C7 as it is stated fails at the limit 0: the query then returns every
    entry, which is more than 0. *)
Lemma recent_logs_limit_zero_returns_all :
  ~ (forall c (limit : Z) level_filter,
       0 <= limit ->
       Z.of_nat (length (get_recent_logs (Given (Some limit)) level_filter c)) <= limit).
Proof.
  intros H.
  specialize (H (store_of 200 error_then_infos) 0 Omitted ltac:(lia)).
  vm_compute in H. now apply H.
Qed.

(** C7, amended.  For every store state, every positive limit and every
    level filter, the query filters the current ring contents by severity
    first and then takes the tail: the result is the last [limit] entries of
    the filtered contents.  It has at most [limit] entries, they are entries
    of the current ring in ring order (oldest first), and with a non-empty
    filter each has the requested level.  (A limit of 0 or [None] truncates
    nothing.) *)
Theorem recent_logs_filter_then_tail
        (c : LogCollector) (limit : Z) (level_filter : option string) :
  0 < limit ->
  let r := get_recent_logs (Given (Some limit)) (Given level_filter) c in
  r = lastn (Z.to_nat limit) (ring_filtered level_filter c)
  /\ Z.of_nat (length r) <= limit
  /\ r `sublist_of` ring_filtered level_filter c
  /\ r `sublist_of` log_entries c
  /\ (forall f e, level_filter = Some f -> f <> "" -> e ∈ r -> level e = Str.upper f).
Proof.
  intros Hpos. cbn zeta. unfold get_recent_logs. cbn [arg_or].
  rewrite recent_logs_filtered.
  destruct (Z.eqb_spec limit 0) as [->|_]; [lia|].
  rewrite slice_from_neg by assumption.
  split; [reflexivity|].
  split. { rewrite length_lastn. lia. }
  assert (Hsub : lastn (Z.to_nat limit) (ring_filtered level_filter c)
                   `sublist_of` ring_filtered level_filter c)
    by apply sublist_drop.
  split; [exact Hsub|].
  split. { etransitivity; [exact Hsub|apply ring_filtered_sublist]. }
  intros f e -> Hf He. apply (ring_filtered_level f c e Hf).
  eapply sublist_subseteq; [exact Hsub|exact He].
Qed.

Lemma recent_logs_filter_then_tail_witness :
  0 < 1
  /\ get_recent_logs (Given (Some 1)) (Given (Some "info")) (store_of 200 error_then_infos)
     = lastn (Z.to_nat 1) (ring_filtered (Some "info") (store_of 200 error_then_infos)).
Proof.
  split; [lia|].
  apply (recent_logs_filter_then_tail (store_of 200 error_then_infos) 1 (Some "info")).
  lia.
Defined.

(** ** The log tailer *)

Lemma ingest_lines_from_ok os path lines i a :
  stats_complete (log_collector a) ->
  for_each i lines
    (fun i line =>
       let line := Str.strip line in
       if Str.truthy line then collector_add (now os path i) path line else mret tt) a
  = mkRes (Ok tt)
      (set_log_collector (store_all (appends_of os path i lines) (log_collector a)) a) [].
Proof.
  revert i a. induction lines as [|line lines IH]; intros i a Hc.
  - cbn. now destruct a.
  - cbn [for_each appends_of]. unfold bind at 1. cbn zeta.
    destruct (Str.truthy (Str.strip line)).
    + unfold collector_add, zoom.
      rewrite add_log_entry_ok by now apply complete_total.
      cbn [result state logged].
      rewrite IH by (cbn [set_log_collector log_collector]; now apply store_complete).
      cbn [result state logged app set_log_collector log_collector directories
           file_positions store_all fold_left].
      reflexivity.
    + cbn [mret M_ret ret result state logged]. rewrite IH by assumption.
      reflexivity.
Qed.

Lemma ingest_lines_ok os path lines a :
  stats_complete (log_collector a) ->
  ingest_lines os path lines a
  = mkRes (Ok tt)
      (set_log_collector (store_all (appends_of os path 0 lines) (log_collector a)) a) [].
Proof. apply ingest_lines_from_ok. Qed.

(** A notification for a file that is not larger than its tracked offset
    does nothing at all. *)
Lemma process_no_growth os path a size :
  getsize os path = Ok size ->
  size <= last_position path a ->
  process_log_file os path a = mkRes (Ok tt) a [].
Proof.
  intros Hsize Hle. unfold process_log_file, last_position in *. run.
  rewrite Hsize. run.
  destruct (Z.ltb_spec (default 0 (file_positions a !! path)) size) as [Hlt|_]; [lia|].
  reflexivity.
Qed.

(** An I/O error leaves the whole state as it was and is logged. *)
Lemma process_io_error os path a e :
  io_error os path a e ->
  process_log_file os path a
  = mkRes (Ok tt) a ["Error processing log file " +:+ path +:+ ": " +:+ e].
Proof.
  unfold io_error, process_log_file, last_position. run.
  destruct (getsize os path) as [size|e'].
  - intros [Hlt Hopen]. run.
    destruct (Z.ltb_spec (default 0 (file_positions a !! path)) size) as [_|Hge]; [|lia].
    destruct (open_text os path) as [f|e']; run.
    + destruct (f_seek f (default 0 (file_positions a !! path))) as [[]|e'']; run.
      * rewrite Hopen. run. reflexivity.
      * now subst.
    + now subst.
  - intros ->. run. reflexivity.
Qed.

(** A notification for a file that has grown and can be read: the lines
    from the tracked offset on are ingested and the offset becomes the size. *)
Lemma process_growth os path a size f lines :
  stats_complete (log_collector a) ->
  getsize os path = Ok size ->
  last_position path a < size ->
  open_text os path = Ok f ->
  f_seek f (last_position path a) = Ok tt ->
  f_readlines f (last_position path a) = Ok lines ->
  process_log_file os path a
  = mkRes (Ok tt)
      (mkApp (directories a)
             (store_all (appends_of os path 0 lines) (log_collector a))
             (<[path := size]> (file_positions a))) [].
Proof.
  intros Hc Hsize Hlt Hopen Hseek Hread.
  unfold process_log_file, last_position in *. run.
  rewrite Hsize. run.
  destruct (Z.ltb_spec (default 0 (file_positions a !! path)) size) as [_|Hge]; [|lia].
  rewrite Hopen. run. rewrite Hseek. run. rewrite Hread. run.
  rewrite ingest_lines_ok by assumption. run. reflexivity.
Qed.

Lemma process_complete os path a :
  stats_complete (log_collector a) ->
  (exists e, io_error os path a e)
  \/ (exists size, getsize os path = Ok size /\ size <= last_position path a)
  \/ (exists size f lines,
        getsize os path = Ok size /\ last_position path a < size
        /\ open_text os path = Ok f
        /\ f_seek f (last_position path a) = Ok tt
        /\ f_readlines f (last_position path a) = Ok lines).
Proof.
  intros _. unfold io_error.
  destruct (getsize os path) as [size|e] eqn:Hsize; [|left; now exists e].
  destruct (Z.le_gt_cases size (last_position path a)) as [Hle|Hlt].
  { right; left. now exists size. }
  destruct (open_text os path) as [f|e] eqn:Hopen; [|left; now exists e].
  destruct (f_seek f (last_position path a)) as [[]|e] eqn:Hseek.
  - destruct (f_readlines f (last_position path a)) as [lines|e] eqn:Hread.
    + right; right. exists size, f, lines. repeat split; try assumption; lia.
    + left. exists e. split; [lia|reflexivity].
  - left. exists e. split; [lia|reflexivity].
Qed.

(** After any notification, a second one for the unchanged file is a no-op. *)
Lemma process_twice os path a :
  stats_complete (log_collector a) ->
  process_log_file os path (state (process_log_file os path a))
  = mkRes (Ok tt) (state (process_log_file os path a))
      (logged (process_log_file os path a)).
Proof.
  intros Hc.
  destruct (process_complete os path a Hc)
    as [[e He]|[(size & Hsize & Hle)|(size & f & lines & Hsize & Hlt & Hopen & Hseek & Hread)]].
  - rewrite (process_io_error _ _ _ _ He). cbn [state logged].
    apply (process_io_error _ _ _ _ He).
  - rewrite (process_no_growth _ _ _ _ Hsize Hle). cbn [state logged].
    apply (process_no_growth _ _ _ _ Hsize Hle).
  - rewrite (process_growth _ _ _ _ _ _ Hc Hsize Hlt Hopen Hseek Hread).
    cbn [state logged]. apply (process_no_growth _ _ _ size); [assumption|].
    unfold last_position. cbn [file_positions]. rewrite lookup_insert_eq. cbn. lia.
Qed.

Lemma process_preserves_complete os path a :
  stats_complete (log_collector a) ->
  stats_complete (log_collector (state (process_log_file os path a))).
Proof.
  intros Hc.
  destruct (process_complete os path a Hc)
    as [[e He]|[(size & Hsize & Hle)|(size & f & lines & Hsize & Hlt & Hopen & Hseek & Hread)]].
  - now rewrite (process_io_error _ _ _ _ He).
  - now rewrite (process_no_growth _ _ _ _ Hsize Hle).
  - rewrite (process_growth _ _ _ _ _ _ Hc Hsize Hlt Hopen Hseek Hread).
    cbn [state log_collector]. now apply store_all_complete.
Qed.

(** ** Invariants of the tailer and of the start-up scan *)

Section Preserves.
Variable P : LogMetricsCollector -> Prop.

Lemma preserves_ret {A} (x : A) : preserves P (mret x).
Proof. intros a H. exact H. Qed.

Lemma preserves_call {A} (x : exc A) : preserves P (call x).
Proof. intros a H. destruct x; exact H. Qed.

Lemma preserves_gets {A} (f : LogMetricsCollector -> A) : preserves P (gets f).
Proof. intros a H. exact H. Qed.

Lemma preserves_logging_error msg : preserves P (logging_error msg).
Proof. intros a H. exact H. Qed.

Lemma preserves_bind {A B} (m : M LogMetricsCollector A) (f : A -> M LogMetricsCollector B) :
  preserves P m -> (forall x, preserves P (f x)) -> preserves P (m ≫= f).
Proof.
  intros Hm Hf a H. unfold mbind, M_bind, bind.
  destruct (result (m a)) as [x|e] eqn:E; cbn [state].
  - apply Hf, Hm, H.
  - apply Hm, H.
Qed.

Lemma preserves_try {A} (body : M LogMetricsCollector A) handler :
  preserves P body -> (forall e, preserves P (handler e)) ->
  preserves P (try_except body handler).
Proof.
  intros Hb Hh a H. unfold try_except.
  destruct (result (body a)) as [x|e] eqn:E; cbn [state].
  - apply Hb, H.
  - apply Hh, Hb, H.
Qed.

Lemma preserves_for_each {A} (xs : list A) i (body : nat -> A -> M LogMetricsCollector unit) :
  (forall i x, preserves P (body i x)) -> preserves P (for_each i xs body).
Proof.
  intros Hb. revert i. induction xs as [|x xs IH]; intros i.
  - apply (preserves_ret tt).
  - cbn [for_each]. apply (preserves_bind (body i x)); [apply Hb|]. intros _. apply IH.
Qed.

(** What is left to show for the tailer and the scan: the invariant
    survives a stored entry. *)
Hypothesis P_add : forall now path line, preserves P (collector_add now path line).

Lemma preserves_ingest_lines os path lines : preserves P (ingest_lines os path lines).
Proof.
  apply preserves_for_each. intros i line. cbn zeta.
  destruct (Str.truthy (Str.strip line)); [apply P_add|apply (preserves_ret tt)].
Qed.

Lemma preserves_load_file os path : preserves P (load_file os path).
Proof.
  apply preserves_try; [|intros e; apply preserves_logging_error].
  apply preserves_bind; [apply preserves_call|]. intros f.
  apply preserves_bind; [apply preserves_call|]. intros lines.
  apply preserves_ingest_lines.
Qed.

Lemma preserves_load_directory os dir : preserves P (load_directory os dir).
Proof.
  unfold load_directory. destruct (path_exists os dir); [|apply (preserves_ret tt)].
  apply preserves_bind; [apply preserves_call|]. intros names.
  apply preserves_for_each. intros _ name.
  destruct (Str.endswith name ".log"); [apply preserves_load_file|apply (preserves_ret tt)].
Qed.

Lemma preserves_load_existing_logs os : preserves P (load_existing_logs os).
Proof.
  apply preserves_bind; [apply preserves_gets|]. intros dirs.
  apply preserves_for_each. intros _ dir. apply preserves_load_directory.
Qed.

End Preserves.

(** The start-up scan leaves the tracked offsets as they are. *)
Lemma load_existing_logs_positions os a :
  file_positions (state (load_existing_logs os a)) = file_positions a.
Proof.
  apply (preserves_load_existing_logs (fun a' => file_positions a' = file_positions a));
    [|reflexivity].
  intros now path line a' H. exact H.
Qed.

Lemma collector_add_complete now path line :
  preserves (fun a => stats_complete (log_collector a)) (collector_add now path line).
Proof.
  intros a H. unfold collector_add, zoom.
  rewrite add_log_entry_ok by now apply complete_total.
  cbn [state set_log_collector log_collector]. now apply store_complete.
Qed.

(** Every reachable state has the six counters of the statistics. *)
Lemma reachable_complete a : reachable a -> stats_complete (log_collector a).
Proof.
  induction 1 as [dirs n|os a _ IH|os event a _ IH|os path a _ IH].
  - apply init_complete.
  - revert IH. apply (preserves_load_existing_logs _ collector_add_complete).
  - unfold on_modified.
    destruct (negb (is_directory event) && Str.endswith (src_path event) ".log");
      [now apply process_preserves_complete|exact IH].
  - now apply process_preserves_complete.
Qed.

Lemma notify_fixed os path a k :
  state (process_log_file os path a) = a -> notify os path k a = a.
Proof.
  intros H. induction k as [|k IH]; [reflexivity|].
  cbn [notify]. now rewrite H.
Qed.

Example one_notification_three_entries :
  let os := Disk.os {[ app_log := "[INFO] a" +:+ nl +:+ "[ERROR] b" +:+ nl +:+ "plain text" +:+ nl ]}
              ∅ "2024-01-01T00:00:00" in
  let a := state (process_log_file os app_log fresh_app) in
  map level (log_entries (log_collector a)) = ["INFO"; "ERROR"; "UNKNOWN"]
  /\ map message (log_entries (log_collector a)) = ["[INFO] a"; "[ERROR] b"; "plain text"]
  /\ getsize os app_log = Ok 30
  /\ last_position app_log a = 30.
Proof. vm_compute. repeat split; reflexivity. Qed.

Example first_read_ingests_two :
  ring_size after_first_read = 2%nat
  /\ last_position app_log after_first_read = 32
  /\ map level (log_entries (log_collector after_first_read)) = ["INFO"; "INFO"].
Proof. vm_compute. repeat split; reflexivity. Qed.

(** C1 as it is stated fails.  After the two lines were read, the file is
    truncated and one new line is appended: its size, 18, is below the
    tracked offset, 32.  However many notifications follow, the offset stays
    32 (it is not reset to 0) and no new entry is observed. *)
Lemma truncation_is_not_detected :
  getsize os_truncated app_log = Ok 18
  /\ last_position app_log after_first_read = 32
  /\ (forall k,
        last_position app_log (notify os_truncated app_log k after_first_read) = 32
        /\ ring_size (notify os_truncated app_log k after_first_read)
           = ring_size after_first_read)
  /\ ring_size (notify os_truncated app_log 3 after_first_read) <> S (ring_size after_first_read)
  /\ last_position app_log (notify os_truncated app_log 3 after_first_read) <> 0.
Proof.
  assert (Hfix : forall k, notify os_truncated app_log k after_first_read = after_first_read).
  { intros k. apply notify_fixed.
    rewrite (process_no_growth os_truncated app_log after_first_read 18);
      [reflexivity|vm_compute; reflexivity|vm_compute; discriminate]. }
  split; [vm_compute; reflexivity|].
  split; [vm_compute; reflexivity|].
  split. { intros k. rewrite Hfix. split; [vm_compute|]; reflexivity. }
  rewrite Hfix. split; vm_compute; [lia|discriminate].
Qed.

(** C1, amended.  For every tailed file whose observed size is less than or
    equal to its tracked offset, a file-change notification does nothing:
    it yields no new log entry, logs nothing and leaves the tracked offset
    (and the rest of the state) unchanged. *)
Theorem shrunk_file_is_ignored (os : OS) (path : string) (a : LogMetricsCollector) (size : Z) :
  getsize os path = Ok size ->
  size <= last_position path a ->
  let r := process_log_file os path a in
  result r = Ok tt
  /\ logged r = []
  /\ state r = a
  /\ last_position path (state r) = last_position path a
  /\ log_entries (log_collector (state r)) = log_entries (log_collector a).
Proof.
  intros Hsize Hle. cbn zeta. rewrite (process_no_growth _ _ _ _ Hsize Hle).
  repeat split; reflexivity.
Qed.

Lemma shrunk_file_is_ignored_witness :
  getsize os_truncated app_log = Ok 18
  /\ 18 <= last_position app_log after_first_read
  /\ state (process_log_file os_truncated app_log after_first_read) = after_first_read.
Proof.
  assert (H1 : getsize os_truncated app_log = Ok 18) by (vm_compute; reflexivity).
  assert (H2 : 18 <= last_position app_log after_first_read) by (vm_compute; discriminate).
  split; [exact H1|]. split; [exact H2|].
  destruct (shrunk_file_is_ignored os_truncated app_log after_first_read 18 H1 H2)
    as (_ & _ & Hstate & _).
  exact Hstate.
Defined.

(** C8.  A notification that finds the size of the file equal to its
    tracked offset yields no new log entry and leaves the offset and the
    rest of the state unchanged.  Processing is idempotent on every
    reachable state: after any notification, further notifications for the
    unchanged file add no entry, move no offset and log nothing.  A
    notification that finds the file grown reads everything from the
    tracked offset to the end and moves the offset to the size it observed,
    whether one modification or several were merged into it. *)
Theorem duplicate_notification_is_noop (os : OS) (path : string) (a : LogMetricsCollector) :
  (forall size,
     getsize os path = Ok size ->
     last_position path a = size ->
     process_log_file os path a = mkRes (Ok tt) a [])
  /\ (reachable a ->
      let a1 := state (process_log_file os path a) in
      process_log_file os path a1 = mkRes (Ok tt) a1 (logged (process_log_file os path a))
      /\ log_entries (log_collector (state (process_log_file os path a1)))
         = log_entries (log_collector a1)
      /\ file_positions (state (process_log_file os path a1)) = file_positions a1
      /\ forall k, notify os path k a1 = a1)
  /\ (forall size f lines,
        reachable a ->
        getsize os path = Ok size ->
        last_position path a < size ->
        open_text os path = Ok f ->
        f_seek f (last_position path a) = Ok tt ->
        f_readlines f (last_position path a) = Ok lines ->
        let a1 := state (process_log_file os path a) in
        log_collector a1 = store_all (appends_of os path 0 lines) (log_collector a)
        /\ last_position path a1 = size).
Proof.
  split; [|split].
  - intros size Hsize Hlast. apply (process_no_growth _ _ _ size); [assumption|lia].
  - intros Hr. apply reachable_complete in Hr as Hc. cbn zeta.
    pose proof (process_twice os path a Hc) as H2.
    split; [exact H2|]. rewrite H2. cbn [state].
    split; [reflexivity|]. split; [reflexivity|].
    intros k. apply notify_fixed. now rewrite H2.
  - intros size f lines Hr Hsize Hlt Hopen Hseek Hread. cbn zeta.
    apply reachable_complete in Hr as Hc.
    rewrite (process_growth _ _ _ _ _ _ Hc Hsize Hlt Hopen Hseek Hread).
    cbn [state log_collector]. split; [reflexivity|].
    unfold last_position. cbn [file_positions]. now rewrite lookup_insert_eq.
Qed.

Lemma duplicate_notification_is_noop_witness :
  getsize os_two_lines app_log = Ok 32
  /\ last_position app_log after_first_read = 32
  /\ process_log_file os_two_lines app_log after_first_read = mkRes (Ok tt) after_first_read []
  /\ reachable fresh_app
  /\ notify os_two_lines app_log 2 after_first_read = after_first_read
  /\ last_position app_log (state (process_log_file os_two_lines app_log fresh_app)) = 32.
Proof.
  assert (H1 : getsize os_two_lines app_log = Ok 32) by (vm_compute; reflexivity).
  assert (H2 : last_position app_log after_first_read = 32) by (vm_compute; reflexivity).
  assert (H3 : reachable fresh_app) by apply reach_init.
  split; [exact H1|]. split; [exact H2|].
  destruct (duplicate_notification_is_noop os_two_lines app_log after_first_read)
    as (Hdup & _ & _).
  destruct (duplicate_notification_is_noop os_two_lines app_log fresh_app)
    as (_ & Hidem & Hgrow).
  split; [exact (Hdup 32 H1 H2)|].
  split; [exact H3|].
  destruct (Hidem H3) as (_ & _ & _ & Hk).
  split; [exact (Hk 2%nat)|].
  refine (proj2 (Hgrow 32 (Disk.text_file two_lines) _ H3 H1 _ _ _ _)).
  - vm_compute. reflexivity.
  - vm_compute. reflexivity.
  - vm_compute. reflexivity.
  - vm_compute. reflexivity.
Defined.

(** C9.  If an I/O error is raised while a change notification is processed
    (by the size query, or by opening, seeking or reading the file), the
    handler returns normally, the error is logged, and the tracked offset,
    like the rest of the state, is unchanged, so that the next notification
    reads from the same offset and behaves as if the failed one had not
    happened. *)
Theorem io_error_keeps_offset (os : OS) (path : string) (a : LogMetricsCollector) (e : string) :
  io_error os path a e ->
  let r := process_log_file os path a in
  result r = Ok tt
  /\ logged r = ["Error processing log file " +:+ path +:+ ": " +:+ e]
  /\ file_positions (state r) = file_positions a
  /\ last_position path (state r) = last_position path a
  /\ log_collector (state r) = log_collector a
  /\ forall os', process_log_file os' path (state r) = process_log_file os' path a.
Proof.
  intros He. cbn zeta. rewrite (process_io_error _ _ _ _ He).
  repeat split; reflexivity.
Qed.

Lemma io_error_keeps_offset_witness :
  io_error os_undecodable app_log after_first_read "UnicodeDecodeError"
  /\ io_error (Disk.os ∅ ∅ "2024-01-01T00:03:00") app_log after_first_read "FileNotFoundError"
  /\ logged (process_log_file os_undecodable app_log after_first_read)
     = ["Error processing log file logs/app.log: UnicodeDecodeError"]
  /\ last_position app_log
       (state (process_log_file (Disk.os ∅ ∅ "2024-01-01T00:03:00") app_log after_first_read))
     = last_position app_log after_first_read.
Proof.
  assert (H1 : io_error os_undecodable app_log after_first_read "UnicodeDecodeError").
  { unfold io_error. cbn. split; [vm_compute|]; reflexivity. }
  assert (H2 : io_error (Disk.os ∅ ∅ "2024-01-01T00:03:00") app_log after_first_read
                 "FileNotFoundError").
  { unfold io_error. cbn. reflexivity. }
  split; [exact H1|]. split; [exact H2|].
  split.
  - destruct (io_error_keeps_offset os_undecodable app_log after_first_read _ H1)
      as (_ & Hlog & _).
    exact Hlog.
  - destruct (io_error_keeps_offset _ app_log after_first_read _ H2)
      as (_ & _ & _ & Hpos & _).
    exact Hpos.
Defined.

(** ** The start-up scan *)

Example bootstrap_seeds_ten :
  result (load_existing_logs os_twelve fresh_app) = Ok tt
  /\ ring_size after_bootstrap = 10%nat
  /\ stat "total_entries" (log_collector after_bootstrap) = 10.
Proof. vm_compute. repeat split; reflexivity. Qed.

(** C2, evaluated on the code.  The start-up scan never touches the tracked
    offsets.  With twelve lines in [logs/app.log] it ingests the last ten
    and leaves the offset of the file at 0 although the file has 144 bytes;
    the first notification afterwards, for one appended line, then reads the
    file from the start and ingests all thirteen lines, the ten seeded ones
    a second time. *)
Theorem bootstrap_leaves_offsets_unset :
  (forall os a, file_positions (state (load_existing_logs os a)) = file_positions a)
  /\ ring_size after_bootstrap = 10%nat
  /\ getsize os_twelve app_log = Ok 144
  /\ file_positions after_bootstrap !! app_log = None
  /\ last_position app_log after_bootstrap = 0
  /\ stat "total_entries"
       (log_collector (state (process_log_file os_thirteen app_log after_bootstrap)))
     = 10 + 13
  /\ map message
       (log_entries (log_collector (state (process_log_file os_thirteen app_log after_bootstrap))))
     = replicate 10 "[INFO] tick" ++ replicate 12 "[INFO] tick" ++ ["[ERROR] boom"].
Proof.
  split; [exact load_existing_logs_positions|].
  vm_compute. repeat split; reflexivity.
Qed.

(** ** The metrics sampler *)

Section Sampler.
Context {num : Type}.
Variable gb : Z -> num.

Lemma get_current_metrics_failure (h : Host num) (sm : SystemMetrics num) e :
  outer_failure h = Some e ->
  get_current_metrics gb h sm = mkRes (Ok None) sm ["Error collecting metrics: " +:+ e].
Proof.
  unfold outer_failure, root_volume, get_current_metrics. run.
  destruct (cpu_percent h); run; [|now intros [= ->]].
  destruct (cpu_count h); run; [|now intros [= ->]].
  destruct (virtual_memory h); run; [|now intros [= ->]].
  destruct (disk_usage h _); run; [|now intros [= ->]].
  destruct (pids h); run; [discriminate|now intros [= ->]].
Qed.

Lemma get_current_metrics_success (h : Host num) (sm : SystemMetrics num) :
  outer_failure h = None ->
  exists snap,
    get_current_metrics gb h sm = mkRes (Ok (Some snap)) sm []
    /\ snap_network snap = network_data h.
Proof.
  unfold outer_failure, root_volume, get_current_metrics. run.
  destruct (cpu_percent h); run; [|discriminate].
  destruct (cpu_count h); run; [|discriminate].
  destruct (virtual_memory h); run; [|discriminate].
  destruct (disk_usage h _); run; [|discriminate].
  destruct (pids h); run; [|discriminate].
  intros _. eexists. split; reflexivity.
Qed.

(** A failing network query alone costs only the network counters. *)
Lemma network_failure_degrades (h : Host num) (sm : SystemMetrics num) e :
  outer_failure h = None ->
  net_io_counters h = Raise e ->
  exists snap,
    snap_network snap = mkNetIO 0 0 0 0
    /\ collect_cycle gb h sm
       = mkRes (Ok tt)
           (mkSystemMetrics (max_history sm)
              (deque_append (max_history sm) (metrics_history sm) snap)
              (is_collecting sm)) [].
Proof.
  intros Hok Hnet. destruct (get_current_metrics_success h sm Hok) as (snap & Hrun & Hn).
  exists snap. split.
  - rewrite Hn. unfold network_data. now rewrite Hnet.
  - unfold collect_cycle. run. rewrite Hrun. run. reflexivity.
Qed.

(** C4, evaluated on the code.  When the CPU, core-count, memory, disk or
    process query raises, no snapshot is built: [get_current_metrics]
    logs the error and returns [None], the cycle appends nothing to the
    history, and the worker goes on with the next cycle. *)
Theorem failed_query_skips_snapshot
        (h : Host num) (hs : list (Host num)) (sm : SystemMetrics num) (e : string) :
  outer_failure h = Some e ->
  get_current_metrics gb h sm = mkRes (Ok None) sm ["Error collecting metrics: " +:+ e]
  /\ collect_cycle gb h sm = mkRes (Ok tt) sm ["Error collecting metrics: " +:+ e]
  /\ metrics_history (state (collect_cycle gb h sm)) = metrics_history sm
  /\ (is_collecting sm = true ->
      state (collect_metrics_continuously gb (h :: hs) sm)
      = state (collect_metrics_continuously gb hs sm)).
Proof.
  intros Hfail. pose proof (get_current_metrics_failure h sm e Hfail) as Hget.
  assert (Hcycle : collect_cycle gb h sm
                   = mkRes (Ok tt) sm ["Error collecting metrics: " +:+ e]).
  { unfold collect_cycle. run. rewrite Hget. run. reflexivity. }
  split; [exact Hget|]. split; [exact Hcycle|].
  split; [now rewrite Hcycle|].
  intros Hrun. cbn [collect_metrics_continuously]. run. rewrite Hrun.
  run. rewrite Hcycle. run. reflexivity.
Qed.
End Sampler.

Lemma failed_query_skips_snapshot_witness :
  outer_failure host_without_cpu = Some "CPU error"
  /\ collect_cycle whole_gb host_without_cpu running_sampler
     = mkRes (Ok tt) running_sampler ["Error collecting metrics: CPU error"]
  /\ length (metrics_history
       (state (collect_metrics_continuously whole_gb
                 [healthy_host; host_without_cpu; host_without_network] running_sampler)))
     = 2%nat.
Proof.
  assert (H : outer_failure host_without_cpu = Some "CPU error") by reflexivity.
  split; [exact H|].
  destruct (failed_query_skips_snapshot whole_gb host_without_cpu [] running_sampler _ H)
    as (_ & Hcycle & _).
  split; [exact Hcycle|].
  vm_compute. reflexivity.
Defined.


(** * Further properties *)

(** ** White space *)

Lemma str_app_cons c s t : String c s +:+ t = String c (s +:+ t).
Proof. reflexivity. Qed.

Lemma str_app_assoc s t u : (s +:+ t) +:+ u = s +:+ t +:+ u.
Proof.
  induction s as [|c s IH]; [reflexivity|].
  rewrite !str_app_cons. now f_equal.
Qed.

Lemma str_app_nil s : s +:+ "" = s.
Proof.
  induction s as [|c s IH]; [reflexivity|].
  rewrite str_app_cons. now f_equal.
Qed.

Lemma rev_onto_app acc s t : Str.rev_onto acc (s +:+ t) = Str.rev_onto (Str.rev_onto acc s) t.
Proof.
  revert acc. induction s as [|c s IH]; intros acc; [reflexivity|].
  rewrite str_app_cons. cbn [Str.rev_onto]. apply IH.
Qed.

Lemma rev_onto_spec acc s : Str.rev_onto acc s = Str.rev s +:+ acc.
Proof.
  unfold Str.rev. revert acc. induction s as [|c s IH]; intros acc; [reflexivity|].
  cbn [Str.rev_onto]. rewrite IH, (IH (String c EmptyString)).
  rewrite str_app_assoc. reflexivity.
Qed.

Lemma rev_snoc s c : Str.rev (s +:+ String c EmptyString) = String c (Str.rev s).
Proof. unfold Str.rev. rewrite rev_onto_app. reflexivity. Qed.

Lemma rev_cons c s : Str.rev (String c s) = Str.rev s +:+ String c EmptyString.
Proof. unfold Str.rev at 1. cbn [Str.rev_onto]. apply rev_onto_spec. Qed.

Lemma rev_involutive s : Str.rev (Str.rev s) = s.
Proof.
  induction s as [|c s IH]; [reflexivity|].
  now rewrite rev_cons, rev_snoc, IH.
Qed.

Lemma lstrip_idem s : Str.lstrip (Str.lstrip s) = Str.lstrip s.
Proof.
  induction s as [|c s IH]; [reflexivity|].
  cbn [Str.lstrip]. destruct (Str.isspace c) eqn:E; [exact IH|].
  cbn [Str.lstrip]. now rewrite E.
Qed.

Lemma lstrip_snoc s c :
  Str.isspace c = false ->
  Str.lstrip (s +:+ String c EmptyString) = Str.lstrip s +:+ String c EmptyString.
Proof.
  intros Hc. induction s as [|d s IH].
  - change (Str.lstrip (String c "") = String c ""). cbn [Str.lstrip]. now rewrite Hc.
  - rewrite str_app_cons. cbn [Str.lstrip].
    destruct (Str.isspace d); [exact IH|reflexivity].
Qed.

Lemma rstrip_cons c s :
  Str.isspace c = false -> Str.rstrip (String c s) = String c (Str.rstrip s).
Proof.
  intros Hc. unfold Str.rstrip. rewrite rev_cons, lstrip_snoc by assumption.
  apply rev_snoc.
Qed.

Lemma rstrip_idem s : Str.rstrip (Str.rstrip s) = Str.rstrip s.
Proof. unfold Str.rstrip. now rewrite rev_involutive, lstrip_idem. Qed.

Lemma strip_idem s : Str.strip (Str.strip s) = Str.strip s.
Proof.
  unfold Str.strip.
  assert (H : Str.lstrip (Str.rstrip (Str.lstrip s)) = Str.rstrip (Str.lstrip s)).
  { induction s as [|c s IH]; [reflexivity|].
    cbn [Str.lstrip]. destruct (Str.isspace c) eqn:E; [exact IH|].
    rewrite rstrip_cons by assumption. cbn [Str.lstrip]. now rewrite E. }
  now rewrite H, rstrip_idem.
Qed.


(** ** Invariants of the reachable states

    A property of the collector that holds at construction and survives the
    storing of a stripped, non-empty line holds in every reachable state. *)

Section CollectorInvariant.
Variable Q : LogCollector -> Prop.
Hypothesis Q_init : forall n, Q (LogCollector_init n).
Hypothesis Q_store :
  forall a c, stats_complete c -> Q c -> stripped_call a -> Q (store a c).

Lemma inv_collector_add now path line :
  Str.truthy (Str.strip line) = true ->
  preserves (collector_inv Q) (collector_add now path (Str.strip line)).
Proof.
  intros Ht a [Hc HQ]. unfold collector_add, zoom.
  rewrite add_log_entry_ok by now apply complete_total.
  cbn [state]. split; cbn [set_log_collector log_collector].
  - now apply store_complete.
  - apply Q_store; try assumption. split; [exact Ht|now exists line].
Qed.

Lemma inv_ingest_lines os path lines : preserves (collector_inv Q) (ingest_lines os path lines).
Proof.
  apply preserves_for_each. intros i line. cbn zeta.
  destruct (Str.truthy (Str.strip line)) eqn:E;
    [now apply inv_collector_add|apply (preserves_ret _ tt)].
Qed.

Lemma inv_set_positions fp :
  preserves (collector_inv Q)
    (modify (fun a => set_file_positions (fp (file_positions a)) a)).
Proof. intros a H. exact H. Qed.

Lemma inv_process os path : preserves (collector_inv Q) (process_log_file os path).
Proof.
  apply preserves_try; [|intros e; apply preserves_logging_error].
  apply preserves_bind; [apply preserves_call|]. intros size.
  apply preserves_bind; [apply preserves_gets|]. intros positions. cbn zeta.
  destruct (_ <? _); [|apply (preserves_ret _ tt)].
  apply preserves_bind; [apply preserves_call|]. intros f.
  apply preserves_bind; [apply preserves_call|]. intros _.
  apply preserves_bind; [apply preserves_call|]. intros lines.
  apply preserves_bind; [apply inv_ingest_lines|]. intros _.
  apply (inv_set_positions (fun m => <[path := size]> m)).
Qed.

Lemma inv_on_modified os event : preserves (collector_inv Q) (on_modified os event).
Proof.
  unfold on_modified. destruct (_ && _); [apply inv_process|apply (preserves_ret _ tt)].
Qed.

Lemma inv_load_file os path : preserves (collector_inv Q) (load_file os path).
Proof.
  apply preserves_try; [|intros e; apply preserves_logging_error].
  apply preserves_bind; [apply preserves_call|]. intros f.
  apply preserves_bind; [apply preserves_call|]. intros lines.
  apply inv_ingest_lines.
Qed.

Lemma inv_load_existing_logs os : preserves (collector_inv Q) (load_existing_logs os).
Proof.
  apply preserves_bind; [apply preserves_gets|]. intros dirs.
  apply preserves_for_each. intros _ dir.
  unfold load_directory. destruct (path_exists os dir); [|apply (preserves_ret _ tt)].
  apply preserves_bind; [apply preserves_call|]. intros names.
  apply preserves_for_each. intros _ name.
  destruct (Str.endswith name ".log"); [apply inv_load_file|apply (preserves_ret _ tt)].
Qed.

Lemma reachable_inv a : reachable a -> collector_inv Q a.
Proof.
  induction 1 as [dirs n|os a _ IH|os event a _ IH|os path a _ IH].
  - split; [apply init_complete|apply Q_init].
  - now apply inv_load_existing_logs.
  - now apply inv_on_modified.
  - now apply inv_process.
Qed.

End CollectorInvariant.

Lemma deque_append_length {A} n (d : list A) x :
  (length d <= n)%nat -> (length (deque_append n d x) <= n)%nat.
Proof.
  intros H. unfold deque_append.
  destruct (Nat.ltb_spec n (length (d ++ [x]))) as [Hlt|Hge].
  - destruct d as [|y d]; cbn [app tail length] in *; [lia|].
    rewrite length_app in *. cbn [length] in *. lia.
  - exact Hge.
Qed.

Lemma deque_append_length_le {A} n (d : list A) x :
  (length (deque_append n d x) <= length d + 1)%nat.
Proof.
  unfold deque_append.
  destruct (n <? length (d ++ [x]))%nat.
  - destruct d as [|y d]; cbn [app tail length]; [lia|].
    rewrite length_app. cbn [length]. lia.
  - rewrite length_app. cbn [length]. lia.
Qed.

Lemma deque_append_Forall {A} (P : A -> Prop) n (d : list A) x :
  Forall P d -> P x -> Forall P (deque_append n d x).
Proof.
  intros Hd Hx. unfold deque_append.
  assert (H : Forall P (d ++ [x])) by (apply Forall_app; split; [assumption|now constructor]).
  destruct (n <? length (d ++ [x]))%nat; [|exact H].
  destruct (d ++ [x]) as [|y l]; [constructor|]. cbn [tail]. now inversion H.
Qed.

Lemma reachable_first_read : reachable after_first_read.
Proof. apply reach_process, reach_init. Qed.

(** X1.  In every reachable state the ring holds at most [max_entries]
    entries, and neither a notification nor the start-up scan changes
    [max_entries]. *)
Theorem ring_never_exceeds_capacity (a : LogMetricsCollector) :
  reachable a ->
  (ring_size a <= max_entries (log_collector a))%nat
  /\ (forall os event,
        max_entries (log_collector (state (on_modified os event a)))
        = max_entries (log_collector a))
  /\ (forall os,
        max_entries (log_collector (state (load_existing_logs os a)))
        = max_entries (log_collector a)).
Proof.
  intros Hr. split; [|split].
  - apply (reachable_inv (fun c => (length (log_entries c) <= max_entries c)%nat)); try assumption.
    + intros n. cbn. lia.
    + intros x c _ Hle _. cbn [store log_entries max_entries]. now apply deque_append_length.
  - intros os event.
    apply (inv_on_modified (fun c => max_entries c = max_entries (log_collector a))).
    + intros x c _ Hc _. exact Hc.
    + split; [now apply reachable_complete|reflexivity].
  - intros os.
    apply (inv_load_existing_logs (fun c => max_entries c = max_entries (log_collector a))).
    + intros x c _ Hc _. exact Hc.
    + split; [now apply reachable_complete|reflexivity].
Qed.

Lemma ring_never_exceeds_capacity_witness :
  reachable after_first_read
  /\ (ring_size after_first_read <= max_entries (log_collector after_first_read))%nat.
Proof.
  split; [exact reachable_first_read|].
  destruct (ring_never_exceeds_capacity after_first_read reachable_first_read) as [H _].
  exact H.
Defined.

Lemma init_consistent n : stats_consistent (LogCollector_init n).
Proof.
  unfold stats_consistent. split; [reflexivity|]. split; [|cbn; reflexivity].
  unfold level_keys. repeat constructor; vm_compute; discriminate.
Qed.

Lemma store_consistent x c :
  stats_complete c -> stats_consistent c -> stats_consistent (store x c).
Proof.
  intros Hc (Hsum & Hpos & Hlen). split; [|split].
  - rewrite total_store, level_counts_store by assumption. lia.
  - apply Forall_forall. intros k Hk. rewrite stat_store by assumption.
    rewrite Forall_forall in Hpos. specialize (Hpos k Hk).
    destruct (decide ("total_entries" = k)); destruct (decide (count_key (a_line x) = k)); lia.
  - rewrite total_store by assumption. cbn [store log_entries].
    pose proof (deque_append_length_le (max_entries c) (log_entries c) (entry_of x)). lia.
Qed.

(** X2.  In every reachable state the statistics are consistent:
    [total_entries] is the sum of the five level counters, no counter is
    negative, and the total is at least the number of entries in the ring. *)
Theorem reachable_stats_consistent (a : LogMetricsCollector) :
  reachable a ->
  stat "total_entries" (log_collector a) = level_counts (log_collector a)
  /\ Forall (fun k => 0 <= stat k (log_collector a)) level_keys
  /\ Z.of_nat (ring_size a) <= stat "total_entries" (log_collector a).
Proof.
  intros Hr.
  apply (reachable_inv stats_consistent init_consistent); [|assumption].
  intros x c Hc Hs _. now apply store_consistent.
Qed.

Lemma reachable_stats_consistent_witness :
  reachable after_first_read
  /\ stat "total_entries" (log_collector after_first_read)
     = level_counts (log_collector after_first_read).
Proof.
  split; [exact reachable_first_read|].
  destruct (reachable_stats_consistent after_first_read reachable_first_read) as [H _].
  exact H.
Defined.

Lemma entry_of_wf x : stripped_call x -> entry_wf (entry_of x).
Proof.
  intros [Ht [line Hl]]. unfold entry_wf, entry_of. cbn [level message file full_path].
  split; [reflexivity|]. split; [apply classify_levels|].
  split; [intros E; rewrite E in Ht; discriminate|].
  split; [|reflexivity]. rewrite Hl. apply strip_idem.
Qed.

Lemma reachable_entries_wf a : reachable a -> Forall entry_wf (log_entries (log_collector a)).
Proof.
  intros Hr.
  apply (reachable_inv (fun c => Forall entry_wf (log_entries c))); try assumption.
  - intros n. constructor.
  - intros x c _ Hf Hx. cbn [store log_entries].
    apply deque_append_Forall; [assumption|now apply entry_of_wf].
Qed.

(** X3.  Every entry in the ring of a reachable state is well formed: its
    level is the classification of its message and one of ERROR, WARNING,
    INFO, DEBUG, UNKNOWN; its message is not empty and carries no white
    space at either end; its file name is the base name of its full path. *)
Theorem reachable_entries_well_formed (a : LogMetricsCollector) :
  reachable a -> Forall entry_wf (log_entries (log_collector a)).
Proof. apply reachable_entries_wf. Qed.

Lemma reachable_entries_well_formed_witness :
  reachable after_first_read /\ Forall entry_wf (log_entries (log_collector after_first_read)).
Proof.
  split; [exact reachable_first_read|].
  exact (reachable_entries_well_formed after_first_read reachable_first_read).
Defined.


(** ** Offsets *)

(** X4.  A file-system event never lowers a tracked offset and can only
    move the offset of its own path; an event for a directory, or for a
    path that does not end in [.log], changes nothing and logs nothing; no
    event changes the configured directories. *)
Theorem offsets_never_decrease
        (os : OS) (event : Event) (a : LogMetricsCollector) (p : string) :
  reachable a ->
  let a' := state (on_modified os event a) in
  last_position p a <= last_position p a'
  /\ (p <> src_path event -> file_positions a' !! p = file_positions a !! p)
  /\ (is_directory event = true \/ Str.endswith (src_path event) ".log" = false ->
      on_modified os event a = mkRes (Ok tt) a [])
  /\ directories a' = directories a.
Proof.
  intros Hr. cbn zeta. apply reachable_complete in Hr as Hc.
  unfold on_modified.
  destruct (is_directory event) eqn:Hd; cbn [negb andb].
  { repeat split; reflexivity. }
  destruct (Str.endswith (src_path event) ".log") eqn:He.
  2:{ repeat split; reflexivity. }
  destruct (process_complete os (src_path event) a Hc)
    as [[e Herr]|[(size & Hsize & Hle)|(size & f & lines & Hsize & Hlt & Hopen & Hseek & Hread)]].
  - rewrite (process_io_error _ _ _ _ Herr). cbn [state].
    split; [reflexivity|]. split; [reflexivity|].
    split; [intros [?|?]; discriminate|reflexivity].
  - rewrite (process_no_growth _ _ _ _ Hsize Hle). cbn [state].
    split; [reflexivity|]. split; [reflexivity|].
    split; [intros [?|?]; discriminate|reflexivity].
  - rewrite (process_growth _ _ _ _ _ _ Hc Hsize Hlt Hopen Hseek Hread). cbn [state].
    split; [|split; [|split; [intros [?|?]; discriminate|reflexivity]]].
    + unfold last_position in *. cbn [file_positions].
      destruct (decide (src_path event = p)) as [<-|Hne].
      * rewrite lookup_insert_eq. cbn. lia.
      * rewrite lookup_insert_ne by assumption. lia.
    + intros Hne. cbn [file_positions]. now rewrite lookup_insert_ne by congruence.
Qed.

Lemma offsets_never_decrease_witness :
  reachable fresh_app
  /\ last_position app_log fresh_app
     <= last_position app_log (state (on_modified os_two_lines (mkEvent false app_log) fresh_app))
  /\ on_modified os_two_lines (mkEvent true app_log) fresh_app = mkRes (Ok tt) fresh_app [].
Proof.
  assert (Hr : reachable fresh_app) by apply reach_init.
  split; [exact Hr|].
  destruct (offsets_never_decrease os_two_lines (mkEvent false app_log) fresh_app app_log Hr)
    as (Hle & _).
  destruct (offsets_never_decrease os_two_lines (mkEvent true app_log) fresh_app app_log Hr)
    as (_ & _ & Hdir & _).
  split; [exact Hle|].
  apply Hdir. left. reflexivity.
Defined.

(** ** Filters and limits *)

Lemma upper_lower s : Str.upper (Str.lower s) = Str.upper s.
Proof.
  unfold Str.upper, Str.lower. induction s as [|c s IH]; [reflexivity|].
  cbn [Str.map]. now rewrite upper_lower_char, IH.
Qed.

Lemma lower_truthy s : Str.truthy (Str.lower s) = Str.truthy s.
Proof. destruct s; reflexivity. Qed.

Lemma slice_from_nil {A} n : slice_from n (@nil A) = [].
Proof. unfold slice_from. apply drop_nil. Qed.

Lemma slice_from_nonneg {A} (n : Z) (l : list A) :
  0 <= n -> slice_from n l = drop (Z.to_nat n) l.
Proof.
  intros Hn. unfold slice_from.
  destruct (Z.ltb_spec n 0) as [H|_]; [lia|].
  destruct (Z.le_gt_cases n (Z.of_nat (length l))) as [Hle|Hgt].
  - f_equal. lia.
  - rewrite !drop_ge by lia. reflexivity.
Qed.

Lemma filter_none {A} (P : A -> Prop) `{!forall x, Decision (P x)} (l : list A) :
  Forall (fun x => ~ P x) l -> filter P l = [].
Proof.
  induction 1 as [|x l Hx _ IH]; [reflexivity|].
  now rewrite filter_cons_False.
Qed.

(** X5.  The level filter of the recent-logs query ignores letter case,
    and on a reachable state a filter whose upper-case form is not one of
    the five stored levels (for instance WARN, CRITICAL or TRACE) selects
    nothing, whatever the limit. *)
Theorem level_filter_is_by_stored_level
        (a : LogMetricsCollector) (limit : option Z) (f g : string) :
  (same_modulo_case f g ->
   recent_logs limit (Some f) (log_collector a) = recent_logs limit (Some g) (log_collector a))
  /\ (reachable a -> f <> "" -> ~ In (Str.upper f) levels ->
      recent_logs limit (Some f) (log_collector a) = []).
Proof.
  split.
  - intros Hfg. unfold same_modulo_case in Hfg. unfold recent_logs.
    rewrite <- (upper_lower f), <- (upper_lower g), Hfg.
    rewrite <- (lower_truthy f), <- (lower_truthy g), Hfg. reflexivity.
  - intros Hr Hf Hnot. rewrite recent_logs_filtered.
    assert (Hempty : ring_filtered (Some f) (log_collector a) = []).
    { unfold ring_filtered. destruct f; [congruence|]. cbn [Str.truthy].
      apply filter_none, Forall_forall. intros e He Hlev.
      pose proof (reachable_entries_wf a Hr) as Hwf.
      rewrite Forall_forall in Hwf. destruct (Hwf e He) as (_ & Hin & _).
      apply Hnot. now rewrite <- Hlev. }
    rewrite Hempty. destruct limit as [n|]; [|reflexivity].
    destruct (n =? 0); [reflexivity|apply slice_from_nil].
Qed.

Lemma level_filter_is_by_stored_level_witness :
  same_modulo_case "Info" "INFO"
  /\ recent_logs (Some 5) (Some "Info") (log_collector after_first_read)
     = recent_logs (Some 5) (Some "INFO") (log_collector after_first_read)
  /\ recent_logs None (Some "warn") (log_collector after_first_read) = [].
Proof.
  split; [reflexivity|].
  destruct (level_filter_is_by_stored_level after_first_read (Some 5) "Info" "INFO") as [Hcase _].
  destruct (level_filter_is_by_stored_level after_first_read None "warn" "warn") as [_ Hnone].
  split; [apply Hcase; reflexivity|].
  apply Hnone; [exact reachable_first_read|discriminate|].
  vm_compute. intuition discriminate.
Defined.

(** X6.  A negative limit does not bound the recent-logs query: it drops
    the [-limit] oldest entries of the (possibly filtered) ring contents and
    returns all the others. *)
Theorem negative_limit_drops_oldest
        (c : LogCollector) (limit : Z) (level_filter : option string) :
  limit < 0 ->
  get_recent_logs (Given (Some limit)) (Given level_filter) c
  = drop_oldest (- limit) (ring_filtered level_filter c)
  /\ length (get_recent_logs (Given (Some limit)) (Given level_filter) c)
     = (length (ring_filtered level_filter c) - Z.to_nat (- limit))%nat.
Proof.
  intros Hneg. unfold get_recent_logs, drop_oldest. cbn [arg_or].
  rewrite recent_logs_filtered.
  destruct (Z.eqb_spec limit 0) as [->|_]; [lia|].
  rewrite slice_from_nonneg by lia. split; [reflexivity|apply length_drop].
Qed.

Lemma negative_limit_drops_oldest_witness :
  -1 < 0
  /\ map message (get_recent_logs (Given (Some (-1))) (Given None)
                    (store_of 200 error_then_infos))
     = ["[INFO] b"; "[INFO] c"].
Proof.
  split; [lia|].
  destruct (negative_limit_drops_oldest (store_of 200 error_then_infos) (-1) None) as [H _];
    [lia|].
  rewrite H. vm_compute. reflexivity.
Defined.


(** ** The metrics ring *)

Section MetricsRing.
Context {num : Type}.
Variable gb : Z -> num.

(** [get_current_metrics] reads the host only: it returns the same value
    in every state and leaves the state alone. *)
Lemma get_current_metrics_run (h : Host num) (sm : SystemMetrics num) :
  get_current_metrics gb h sm = mkRes (Ok (snapshot_of gb h)) sm (failure_log h).
Proof.
  unfold snapshot_of, failure_log.
  destruct (outer_failure h) as [e|] eqn:E.
  - rewrite !(get_current_metrics_failure gb h _ e E). reflexivity.
  - destruct (get_current_metrics_success gb h sm E) as (snap & Hrun & _).
    destruct (get_current_metrics_success gb h (SystemMetrics_init 0) E) as (snap0 & Hrun0 & _).
    rewrite Hrun, Hrun0. cbn [result]. do 2 f_equal.
    revert Hrun Hrun0. unfold get_current_metrics. run.
    destruct (cpu_percent h); run; [|discriminate].
    destruct (cpu_count h); run; [|discriminate].
    destruct (virtual_memory h); run; [|discriminate].
    destruct (disk_usage h _); run; [|discriminate].
    destruct (pids h); run; [|discriminate].
    intros [= <-] [= <-]. reflexivity.
Qed.

Lemma collect_cycle_run (h : Host num) (sm : SystemMetrics num) :
  collect_cycle gb h sm
  = mkRes (Ok tt)
      (match snapshot_of gb h with
       | Some m =>
           mkSystemMetrics (max_history sm)
             (deque_append (max_history sm) (metrics_history sm) m) (is_collecting sm)
       | None => sm
       end)
      (failure_log h).
Proof.
  unfold collect_cycle. run. rewrite get_current_metrics_run. run.
  destruct (snapshot_of gb h); run; now rewrite app_nil_r.
Qed.

Lemma collect_loop_run (hs : list (Host num)) (sm : SystemMetrics num) (seen : list (Snapshot num)) :
  is_collecting sm = true ->
  metrics_history sm = lastn (max_history sm) seen ->
  collect_metrics_continuously gb hs sm
  = mkRes (Ok tt)
      (mkSystemMetrics (max_history sm)
         (lastn (max_history sm) (seen ++ omap (snapshot_of gb) hs)) true)
      (concat (map failure_log hs)).
Proof.
  revert sm seen. induction hs as [|h hs IH]; intros sm seen Hrun Hhist.
  - cbn. rewrite app_nil_r, <- Hhist, <- Hrun. destruct sm; reflexivity.
  - cbn [collect_metrics_continuously]. run. rewrite Hrun. run.
    rewrite collect_cycle_run. run.
    destruct (snapshot_of gb h) as [m|] eqn:E.
    + rewrite (IH _ (seen ++ [m])).
      * cbn [result state logged max_history map concat omap list_omap].
        rewrite E. cbn [app]. rewrite <- app_assoc. reflexivity.
      * exact Hrun.
      * cbn [metrics_history max_history]. rewrite Hhist. apply deque_append_lastn.
    + rewrite (IH _ seen Hrun Hhist).
      cbn [result state logged max_history map concat omap list_omap].
      rewrite E. reflexivity.
Qed.

Lemma lastn_all {A} n (l : list A) : (length l <= n)%nat -> lastn n l = l.
Proof. intros H. unfold lastn. replace (length l - n)%nat with 0%nat by lia. reflexivity. Qed.

(** X7.  A run of the sampling loop over any sequence of host observations
    returns; the history then holds the last [max_history] of the old
    snapshots followed by the snapshots of the cycles that succeeded, in
    order, so never more than [max_history]; each failed cycle leaves one
    log record and nothing else.  With [is_collecting] false the loop does
    nothing. *)
Theorem sampling_loop_keeps_latest (hs : list (Host num)) (sm : SystemMetrics num) :
  (is_collecting sm = true ->
   (length (metrics_history sm) <= max_history sm)%nat ->
   let r := collect_metrics_continuously gb hs sm in
   result r = Ok tt
   /\ metrics_history (state r)
      = lastn (max_history sm) (metrics_history sm ++ omap (snapshot_of gb) hs)
   /\ (length (metrics_history (state r)) <= max_history sm)%nat
   /\ max_history (state r) = max_history sm
   /\ logged r = concat (map failure_log hs))
  /\ (is_collecting sm = false ->
      collect_metrics_continuously gb hs sm = mkRes (Ok tt) sm []).
Proof.
  split.
  - intros Hrun Hlen. cbn zeta.
    rewrite (collect_loop_run hs sm (metrics_history sm) Hrun)
      by (symmetry; now apply lastn_all).
    cbn [result state logged metrics_history max_history].
    repeat split. rewrite length_lastn. lia.
  - intros Hstop. destruct hs as [|h hs]; [reflexivity|].
    cbn [collect_metrics_continuously]. run. rewrite Hstop. reflexivity.
Qed.

(** X8.  The history query returns every snapshot when the limit is
    omitted, [None] or 0, the last [limit] snapshots when it is positive,
    and all but the [-limit] oldest when it is negative. *)
Theorem metrics_history_by_limit (sm : SystemMetrics num) (n : Z) :
  get_metrics_history Omitted sm = metrics_history sm
  /\ get_metrics_history (Given None) sm = metrics_history sm
  /\ get_metrics_history (Given (Some 0)) sm = metrics_history sm
  /\ (0 < n ->
      get_metrics_history (Given (Some n)) sm = lastn (Z.to_nat n) (metrics_history sm))
  /\ (n < 0 ->
      get_metrics_history (Given (Some n)) sm = drop_oldest (- n) (metrics_history sm)).
Proof.
  unfold get_metrics_history, drop_oldest. cbn [arg_or].
  repeat split; try reflexivity.
  - intros Hn. destruct (Z.eqb_spec n 0) as [->|_]; [lia|]. now apply slice_from_neg.
  - intros Hn. destruct (Z.eqb_spec n 0) as [->|_]; [lia|]. apply slice_from_nonneg. lia.
Qed.

End MetricsRing.

Lemma sampling_loop_keeps_latest_witness :
  is_collecting running_sampler = true
  /\ (length (metrics_history running_sampler) <= max_history running_sampler)%nat
  /\ map snap_timestamp
       (metrics_history
          (state (collect_metrics_continuously whole_gb
                    [healthy_host; host_without_cpu; host_without_network] running_sampler)))
     = ["2024-01-01T00:00:05"; "2024-01-01T00:00:15"].
Proof.
  assert (H1 : is_collecting running_sampler = true) by reflexivity.
  assert (H2 : (length (metrics_history running_sampler) <= max_history running_sampler)%nat)
    by (vm_compute; lia).
  split; [exact H1|]. split; [exact H2|].
  destruct (sampling_loop_keeps_latest whole_gb
              [healthy_host; host_without_cpu; host_without_network] running_sampler)
    as [Hloop _].
  destruct (Hloop H1 H2) as (_ & Hhist & _).
  rewrite Hhist. vm_compute. reflexivity.
Defined.

Lemma metrics_history_by_limit_witness :
  length (get_metrics_history (Given (Some 1))
            (state (collect_metrics_continuously whole_gb
                      [healthy_host; host_without_network] running_sampler))) = 1%nat
  /\ length (get_metrics_history (Given (Some (-1)))
            (state (collect_metrics_continuously whole_gb
                      [healthy_host; host_without_network] running_sampler))) = 1%nat.
Proof.
  destruct (metrics_history_by_limit
              (state (collect_metrics_continuously whole_gb
                        [healthy_host; host_without_network] running_sampler)) 1)
    as (_ & _ & _ & Hpos & _).
  destruct (metrics_history_by_limit
              (state (collect_metrics_continuously whole_gb
                        [healthy_host; host_without_network] running_sampler)) (-1))
    as (_ & _ & _ & _ & Hneg).
  split.
  - rewrite Hpos by lia. vm_compute. reflexivity.
  - rewrite Hneg by lia. vm_compute. reflexivity.
Defined.


(** ** Incremental reading of text files *)

Lemma str_length_app s t : String.length (s +:+ t) = (String.length s + String.length t)%nat.
Proof.
  induction s as [|c s IH]; [reflexivity|].
  rewrite str_app_cons. cbn [String.length]. now rewrite IH.
Qed.

Lemma str_drop_app s t : Str.drop (String.length s) (s +:+ t) = t.
Proof.
  induction s as [|c s IH]; [now destruct t|].
  rewrite str_app_cons. cbn [String.length Str.drop]. exact IH.
Qed.

Lemma str_drop_0 s : Str.drop 0 s = s.
Proof. now destruct s. Qed.

Lemma str_drop_all s : Str.drop (String.length s) s = EmptyString.
Proof. induction s as [|c s IH]; [reflexivity|exact IH]. Qed.

Lemma appends_of_lines os path i lines :
  map a_line (appends_of os path i lines) = kept_lines lines.
Proof.
  unfold kept_lines. revert i. induction lines as [|l lines IH]; intros i; [reflexivity|].
  cbn [appends_of map]. rewrite map_app, IH, filter_cons.
  destruct (Str.truthy (Str.strip l)) eqn:E.
  - rewrite decide_True by reflexivity. reflexivity.
  - rewrite decide_False by discriminate. reflexivity.
Qed.

Lemma kept_lines_app l1 l2 : kept_lines (l1 ++ l2) = kept_lines l1 ++ kept_lines l2.
Proof. unfold kept_lines. now rewrite map_app, filter_app. Qed.

(** A text that ends a line can be split there. *)
Lemma split_lines_app cur s extra :
  Disk.split_lines cur ((s +:+ nl) +:+ extra)
  = Disk.split_lines cur (s +:+ nl) ++ Disk.split_lines EmptyString extra.
Proof.
  revert cur. induction s as [|c s IH]; intros cur.
  - change (("" +:+ nl) +:+ extra) with (String Disk.LF extra).
    change ("" +:+ nl) with (String Disk.LF EmptyString).
    cbn [Disk.split_lines]. rewrite Ascii.eqb_refl. reflexivity.
  - rewrite !str_app_cons. cbn [Disk.split_lines].
    destruct (Ascii.eqb c Disk.LF); [now rewrite IH|].
    destruct (Ascii.eqb c Disk.CR); [|apply IH].
    destruct s as [|d s].
    + change (("" +:+ nl) +:+ extra) with (String Disk.LF extra).
      change ("" +:+ nl) with (String Disk.LF EmptyString).
      cbv beta iota. rewrite Ascii.eqb_refl. reflexivity.
    + rewrite !str_app_cons in *. cbv beta iota.
      destruct (Ascii.eqb d Disk.LF) eqn:Ed.
      * specialize (IH EmptyString). cbn [Disk.split_lines] in IH. rewrite Ed in IH.
        injection IH as IH. now rewrite IH.
      * now rewrite IH.
Qed.

Lemma store_all_app calls1 calls2 c :
  store_all (calls1 ++ calls2) c = store_all calls2 (store_all calls1 c).
Proof. unfold store_all. apply fold_left_app. Qed.

(** One notification for an ASCII file on the disk of the scenarios. *)
Lemma process_disk path content dirs time a :
  stats_complete (log_collector a) ->
  0 <= last_position path a <= Z.of_nat (String.length content) ->
  let os := Disk.os {[ path := content ]} dirs time in
  let a' := state (process_log_file os path a) in
  log_collector a'
  = store_all
      (appends_of os path 0
         (text_lines (Str.drop (Z.to_nat (last_position path a)) content)))
      (log_collector a)
  /\ last_position path a' = Z.of_nat (String.length content).
Proof.
  intros Hc Hpos. cbn zeta.
  set (os := Disk.os {[ path := content ]} dirs time).
  assert (Hsize : getsize os path = Ok (Z.of_nat (String.length content))).
  { unfold os, Disk.os, Disk.lookup_file. cbn [getsize]. now rewrite lookup_singleton_eq. }
  assert (Hopen : open_text os path = Ok (Disk.text_file content)).
  { unfold os, Disk.os, Disk.lookup_file. cbn [open_text]. now rewrite lookup_singleton_eq. }
  destruct (Z.eq_dec (last_position path a) (Z.of_nat (String.length content))) as [Heq|Hne].
  - rewrite (process_no_growth os path a _ Hsize) by lia. cbn [state].
    rewrite Heq, Nat2Z.id, str_drop_all. split; reflexivity.
  - rewrite (process_growth os path a _ (Disk.text_file content)
               (text_lines (Str.drop (Z.to_nat (last_position path a)) content))
               Hc Hsize); try assumption; try lia.
    + cbn [state log_collector]. split; [reflexivity|].
      unfold last_position. cbn [file_positions]. now rewrite lookup_insert_eq.
    + cbn [Disk.text_file f_seek].
      destruct (Z.ltb_spec (last_position path a) 0); [lia|reflexivity].
    + reflexivity.
Qed.

(** X9.  A text file that grows by appended ASCII text is read
    incrementally: after a notification for the first content and one for
    the grown content, the store has received the lines of the first
    content followed by exactly the lines of the appended text, nothing
    twice, and the tracked offset is the size of the file.  When the first
    content ends with a line end, the messages are those of the whole file
    read at once. *)
Theorem appended_text_is_read_once
        (path c1 extra : string) (dirs : gmap string (list string)) (t1 t2 : string)
        (a : LogMetricsCollector) :
  reachable a ->
  last_position path a = 0 ->
  let os1 := Disk.os {[ path := c1 ]} dirs t1 in
  let os2 := Disk.os {[ path := c1 +:+ extra ]} dirs t2 in
  let a2 := state (process_log_file os2 path (state (process_log_file os1 path a))) in
  let calls1 := appends_of os1 path 0 (text_lines c1) in
  let calls2 := appends_of os2 path 0 (text_lines extra) in
  log_collector a2 = store_all (calls1 ++ calls2) (log_collector a)
  /\ last_position path a2 = Z.of_nat (String.length (c1 +:+ extra))
  /\ map a_line (calls1 ++ calls2) = kept_lines (text_lines c1) ++ kept_lines (text_lines extra)
  /\ (forall s, c1 = s +:+ nl ->
        map a_line (calls1 ++ calls2) = kept_lines (text_lines (c1 +:+ extra))).
Proof.
  intros Hr H0. cbn zeta. apply reachable_complete in Hr as Hc.
  destruct (process_disk path c1 dirs t1 a Hc) as [Hlc1 Hpos1]; [lia|].
  rewrite H0 in Hlc1. change (Z.to_nat 0) with 0%nat in Hlc1. rewrite str_drop_0 in Hlc1.
  set (a1 := state (process_log_file (Disk.os {[ path := c1 ]} dirs t1) path a)) in *.
  assert (Hc1 : stats_complete (log_collector a1)) by now apply process_preserves_complete.
  destruct (process_disk path (c1 +:+ extra) dirs t2 a1 Hc1) as [Hlc2 Hpos2].
  { rewrite Hpos1, str_length_app. lia. }
  rewrite Hpos1, Nat2Z.id, str_drop_app in Hlc2.
  split; [|split; [exact Hpos2|split]].
  - rewrite Hlc2, Hlc1. symmetry. apply store_all_app.
  - now rewrite map_app, !appends_of_lines.
  - intros s ->. rewrite map_app, !appends_of_lines. unfold text_lines.
    now rewrite split_lines_app, kept_lines_app.
Qed.

Lemma appended_text_is_read_once_witness :
  reachable fresh_app
  /\ last_position app_log fresh_app = 0
  /\ last_position app_log
       (state (process_log_file
                 (Disk.os {[ app_log := two_lines +:+ one_new_line ]}
                    {[ "logs" := ["app.log"] ]} "2024-01-01T00:01:00")
                 app_log after_first_read))
     = Z.of_nat (String.length (two_lines +:+ one_new_line)).
Proof.
  assert (Hr : reachable fresh_app) by apply reach_init.
  assert (H0 : last_position app_log fresh_app = 0) by reflexivity.
  split; [exact Hr|]. split; [exact H0|].
  destruct (appended_text_is_read_once app_log two_lines one_new_line
              {[ "logs" := ["app.log"] ]} "2024-01-01T00:00:00" "2024-01-01T00:01:00"
              fresh_app Hr H0) as (_ & Hpos & _).
  exact Hpos.
Defined.


(** ** The start-up scan, file by file *)

Lemma load_file_run os path a :
  stats_complete (log_collector a) ->
  load_file os path a
  = match open_text os path with
    | Raise e => mkRes (Ok tt) a [load_error path e]
    | Ok f =>
        match f_readlines f 0 with
        | Raise e => mkRes (Ok tt) a [load_error path e]
        | Ok lines =>
            mkRes (Ok tt)
              (set_log_collector
                 (store_all (appends_of os path 0 (last10 lines)) (log_collector a)) a) []
        end
    end.
Proof.
  intros Hc. unfold load_file, load_error. run.
  destruct (open_text os path) as [f|e]; run; [|reflexivity].
  destruct (f_readlines f 0) as [lines|e]; run; [|reflexivity].
  rewrite ingest_lines_ok by assumption. reflexivity.
Qed.

Lemma length_appends_of os path i lines :
  (length (appends_of os path i lines) <= length lines)%nat.
Proof.
  revert i. induction lines as [|l lines IH]; intros i; [reflexivity|].
  cbn [appends_of]. rewrite length_app. specialize (IH (S i)).
  destruct (Str.truthy (Str.strip l)); cbn [length]; lia.
Qed.

Lemma length_last10 {A} (lines : list A) : (length (last10 lines) <= 10)%nat.
Proof.
  unfold last10. rewrite (slice_from_neg 10) by lia. rewrite length_lastn. lia.
Qed.

(** X10.  Reading one file at start-up never raises and never moves an
    offset.  A readable file contributes the non-blank lines among its last
    ten raw lines, stripped, so at most ten entries (blank lines among the
    last ten are not made up for by earlier lines); a file that cannot be
    opened or decoded contributes nothing and is logged. *)
Theorem bootstrap_file_seeds_at_most_ten (os : OS) (path : string) (a : LogMetricsCollector) :
  reachable a ->
  let r := load_file os path a in
  result r = Ok tt
  /\ file_positions (state r) = file_positions a
  /\ stat "total_entries" (log_collector a) <= stat "total_entries" (log_collector (state r))
     <= stat "total_entries" (log_collector a) + 10
  /\ (forall f lines,
        open_text os path = Ok f -> f_readlines f 0 = Ok lines ->
        log_collector (state r)
        = store_all (appends_of os path 0 (last10 lines)) (log_collector a)
        /\ map a_line (appends_of os path 0 (last10 lines)) = kept_lines (last10 lines)
        /\ logged r = [])
  /\ (forall e,
        open_text os path = Raise e
        \/ (exists f, open_text os path = Ok f /\ f_readlines f 0 = Raise e) ->
        state r = a /\ logged r = [load_error path e]).
Proof.
  intros Hr. apply reachable_complete in Hr as Hc. cbn zeta.
  rewrite (load_file_run os path a Hc).
  destruct (open_text os path) as [f|e] eqn:Hopen.
  - destruct (f_readlines f 0) as [lines|e] eqn:Hread; cbn [result state logged].
    + split; [reflexivity|]. split; [reflexivity|]. split; [|split].
      * cbn [set_log_collector log_collector]. rewrite total_store_all by assumption.
        pose proof (length_appends_of os path 0 (last10 lines)).
        pose proof (length_last10 lines). lia.
      * intros f' lines' [= <-] Hread'. rewrite Hread in Hread'. injection Hread' as <-.
        split; [reflexivity|]. split; [apply appends_of_lines|reflexivity].
      * intros e [Hraise|(f' & [= <-] & Hraise)]; [discriminate|].
        rewrite Hread in Hraise. discriminate.
    + split; [reflexivity|]. split; [reflexivity|]. split; [lia|split].
      * intros f' lines' [= <-] Hread'. rewrite Hread in Hread'. discriminate.
      * intros e' [Hraise|(f' & [= <-] & Hraise)]; [discriminate|].
        rewrite Hread in Hraise. injection Hraise as <-. split; reflexivity.
  - cbn [result state logged].
    split; [reflexivity|]. split; [reflexivity|]. split; [lia|split].
    + intros f' lines' [=].
    + intros e' [[= <-]|(f' & [=] & _)]. split; reflexivity.
Qed.

Lemma bootstrap_file_seeds_at_most_ten_witness :
  reachable fresh_app
  /\ stat "total_entries" (log_collector (state (load_file os_twelve app_log fresh_app)))
     <= stat "total_entries" (log_collector fresh_app) + 10.
Proof.
  assert (Hr : reachable fresh_app) by apply reach_init.
  split; [exact Hr|].
  destruct (bootstrap_file_seeds_at_most_ten os_twelve app_log fresh_app Hr)
    as (_ & _ & [_ Hle] & _).
  exact Hle.
Defined.

(** ** The start-up scan, directory by directory *)

Lemma res_eta {S A} (r : Res S A) : mkRes (result r) (state r) (logged r) = r.
Proof. now destruct r. Qed.

Lemma load_existing_logs_scan os a : load_existing_logs os a = scan os (directories a) a.
Proof. unfold load_existing_logs, scan. run. apply res_eta. Qed.

Lemma for_each_app {St A} (xs ys : list A) i (body : nat -> A -> M St unit) :
  forall s,
    for_each i (xs ++ ys) body s
    = bind (for_each i xs body) (fun _ => for_each (i + length xs) ys body) s.
Proof.
  revert i. induction xs as [|x xs IH]; intros i s.
  - cbn [app for_each length]. unfold bind, ret. cbn [result state logged app].
    rewrite Nat.add_0_r. symmetry. apply res_eta.
  - cbn [app for_each length]. unfold bind.
    destruct (result (body i x s)) as [[]|e] eqn:E; cbn [result state logged];
      [|reflexivity].
    rewrite IH. unfold bind.
    replace (S i + length xs)%nat with (i + S (length xs))%nat by lia.
    destruct (result (for_each (S i) xs body (state (body i x s)))) as [[]|e'];
      cbn [result state logged]; [|reflexivity].
    now rewrite app_assoc.
Qed.

Lemma for_each_ok {A} (P : LogMetricsCollector -> Prop) (xs : list A) i
      (body : nat -> A -> M LogMetricsCollector unit) :
  (forall i x a, In x xs -> P a -> result (body i x a) = Ok tt /\ P (state (body i x a))) ->
  forall a, P a ->
    result (for_each i xs body a) = Ok tt /\ P (state (for_each i xs body a)).
Proof.
  revert i. induction xs as [|x xs IH]; intros i Hb a Ha; [now split|].
  cbn [for_each]. unfold bind.
  destruct (Hb i x a (or_introl eq_refl) Ha) as [Hres HP]. rewrite Hres.
  cbn [result state]. apply IH; [|exact HP].
  intros j y a' Hy. apply Hb. now right.
Qed.

Lemma load_file_ok os path a :
  stats_complete (log_collector a) ->
  result (load_file os path a) = Ok tt
  /\ stats_complete (log_collector (state (load_file os path a))).
Proof.
  intros Hc. rewrite (load_file_run os path a Hc).
  destruct (open_text os path) as [f|e]; [|now split].
  destruct (f_readlines f 0) as [lines|e]; [|now split].
  split; [reflexivity|]. cbn [state set_log_collector log_collector].
  now apply store_all_complete.
Qed.

Lemma load_directory_ok os dir a :
  listable os dir ->
  stats_complete (log_collector a) ->
  result (load_directory os dir a) = Ok tt
  /\ stats_complete (log_collector (state (load_directory os dir a))).
Proof.
  intros Hl Hc. unfold load_directory.
  destruct (path_exists os dir) eqn:He; [|now split].
  destruct (Hl He) as [names Hnames]. run. rewrite Hnames. run.
  destruct (for_each_ok (fun a => stats_complete (log_collector a)) names 0
              (fun _ filename =>
                 if Str.endswith filename ".log"
                 then load_file os (Path.join dir filename) else mret tt)) with (a := a)
    as [Hres Hcomp]; [|assumption|].
  - intros i x a' _ Ha'. destruct (Str.endswith x ".log"); [now apply load_file_ok|now split].
  - split; [exact Hres|exact Hcomp].
Qed.

Lemma load_directory_unlistable os dir a e :
  path_exists os dir = true -> listdir os dir = Raise e ->
  load_directory os dir a = mkRes (Raise e) a [].
Proof.
  intros He Hl. unfold load_directory. rewrite He. run. rewrite Hl. reflexivity.
Qed.

(** X11.  The start-up scan returns normally when every configured
    directory that exists can be listed.  An exception of [os.listdir] is
    not caught: it leaves [load_existing_logs], and the directories
    configured after the one that failed are not scanned. *)
Theorem scan_stops_at_unlistable_directory (os : OS) (a : LogMetricsCollector) :
  reachable a ->
  (Forall (listable os) (directories a) -> result (load_existing_logs os a) = Ok tt)
  /\ (forall pre d post e,
        directories a = pre ++ d :: post ->
        Forall (listable os) pre ->
        path_exists os d = true ->
        listdir os d = Raise e ->
        result (load_existing_logs os a) = Raise e
        /\ state (load_existing_logs os a) = state (scan os pre a)
        /\ logged (load_existing_logs os a) = logged (scan os pre a)).
Proof.
  intros Hr. apply reachable_complete in Hr as Hc.
  assert (Hscan : forall dirs a', Forall (listable os) dirs ->
            stats_complete (log_collector a') ->
            result (scan os dirs a') = Ok tt
            /\ stats_complete (log_collector (state (scan os dirs a')))).
  { intros dirs a' Hl Ha'. unfold scan.
    apply (for_each_ok (fun a => stats_complete (log_collector a))); [|assumption].
    intros i x a'' Hx Ha''. apply load_directory_ok; [|assumption].
    rewrite Forall_forall in Hl. apply Hl. now apply list_elem_of_In. }
  split.
  - intros Hl. rewrite load_existing_logs_scan. now apply Hscan.
  - intros pre d post e Hdirs Hpre Hex Hraise.
    assert (Hrun : scan os (pre ++ d :: post) a
                   = mkRes (Raise e) (state (scan os pre a)) (logged (scan os pre a))).
    { unfold scan at 1. rewrite for_each_app. unfold bind. fold (scan os pre a).
      destruct (Hscan pre a Hpre Hc) as [Hres _]. rewrite Hres.
      cbn [for_each]. unfold bind.
      rewrite (load_directory_unlistable os d _ e Hex Hraise).
      cbn [result state logged]. now rewrite app_nil_r. }
    rewrite load_existing_logs_scan, Hdirs, Hrun. repeat split; reflexivity.
Qed.

Lemma scan_stops_at_unlistable_directory_witness :
  reachable fresh_app
  /\ directories fresh_app = [] ++ "logs" :: []
  /\ path_exists os_logs_is_a_file "logs" = true
  /\ listdir os_logs_is_a_file "logs" = Raise "NotADirectoryError"
  /\ result (load_existing_logs os_logs_is_a_file fresh_app) = Raise "NotADirectoryError"
  /\ result (load_existing_logs os_twelve fresh_app) = Ok tt.
Proof.
  assert (Hr : reachable fresh_app) by apply reach_init.
  assert (Hd : directories fresh_app = [] ++ "logs" :: []) by reflexivity.
  assert (He : path_exists os_logs_is_a_file "logs" = true) by (vm_compute; reflexivity).
  assert (Hl : listdir os_logs_is_a_file "logs" = Raise "NotADirectoryError")
    by (vm_compute; reflexivity).
  split; [exact Hr|]. split; [exact Hd|]. split; [exact He|]. split; [exact Hl|].
  destruct (scan_stops_at_unlistable_directory os_logs_is_a_file fresh_app Hr) as [_ Hstop].
  destruct (scan_stops_at_unlistable_directory os_twelve fresh_app Hr) as [Hok _].
  split.
  - destruct (Hstop [] "logs" [] _ Hd (List.Forall_nil _) He Hl) as [Hres _]. exact Hres.
  - apply Hok. repeat constructor. intros _. eexists. vm_compute. reflexivity.
Defined.

(** ** The configuration file *)

Lemma merge_section_ok name v (cfg : gmap string section) :
  mergeable cfg (name, v) ->
  merge_section name v cfg = mkRes (Ok tt) (<[name := merged (cfg !! name) v]> cfg) [].
Proof.
  unfold mergeable, merge_section, merged. cbn [fst snd]. run.
  destruct (cfg !! name) as [[m|t|x]|]; try contradiction; [|reflexivity].
  destruct v as [m'|t|x]; try contradiction. reflexivity.
Qed.

Lemma merge_section_bad name v (cfg : gmap string section) m :
  cfg !! name = Some (Mapping m) ->
  not_a_mapping v ->
  exists e, merge_section name v cfg = mkRes (Raise e) cfg [].
Proof.
  intros Hm Hv. unfold merge_section. run. rewrite Hm. cbn [dict_update].
  destruct v as [m'|[|c t]|x]; try contradiction; eexists; reflexivity.
Qed.

(** The configuration after the members [sections] were merged in turn. *)
Lemma merge_sections_ok sections : forall i (cfg : gmap string section),
  NoDup (map fst sections) ->
  Forall (mergeable cfg) sections ->
  exists cfg',
    for_each i sections (fun _ member => merge_section (fst member) (snd member)) cfg
    = mkRes (Ok tt) cfg' []
    /\ forall name,
         cfg' !! name
         = match assoc name sections with
           | Some v => Some (merged (cfg !! name) v)
           | None => cfg !! name
           end.
Proof.
  induction sections as [|[n v] rest IH]; intros i cfg Hnd Hok.
  - exists cfg. split; reflexivity.
  - cbn [map fst] in Hnd. apply NoDup_cons in Hnd as [Hn Hnd].
    apply Forall_cons in Hok as [Hhead Hrest].
    destruct (IH (S i) (<[n := merged (cfg !! n) v]> cfg) Hnd) as (cfg' & Hrun & Hlook).
    { apply Forall_forall. intros [n' v'] Hin. rewrite Forall_forall in Hrest.
      specialize (Hrest _ Hin). unfold mergeable in *. cbn [fst snd] in *.
      rewrite lookup_insert_ne; [exact Hrest|].
      intros ->. apply Hn. apply list_elem_of_fmap. now exists (n', v'). }
    exists cfg'. split.
    + cbn [for_each fst snd]. unfold bind. rewrite merge_section_ok by assumption.
      cbn [result state logged]. rewrite Hrun. reflexivity.
    + intros name. rewrite Hlook. cbn [assoc].
      destruct (String.eqb_spec n name) as [->|Hne].
      * assert (Hnone : assoc name rest = None).
        { clear -Hn. induction rest as [|[n' v'] rest IH]; [reflexivity|].
          cbn [assoc]. destruct (String.eqb_spec n' name) as [->|_].
          - exfalso. apply Hn. cbn. left.
          - apply IH. intros H. apply Hn. cbn. now right. }
        rewrite Hnone. apply lookup_insert_eq.
      * rewrite lookup_insert_ne by assumption. reflexivity.
Qed.

(** X12.  A configuration file that holds a JSON object whose members can
    be merged (an object for each section that has defaults, anything for a
    new section) is merged without a warning: a section with defaults holds
    the user's keys over the default ones, so a user key wins and a default
    key the user left out stays; a new section is taken as it is; a section
    the file does not mention keeps its defaults. *)
Theorem load_config_merges_sections
        (config_file : string) (sections : list (string * section)) :
  NoDup (map fst sections) ->
  Forall (mergeable default_config) sections ->
  let cfg := load_config config_file true (Ok (Object sections)) in
  load_config_warnings config_file true (Ok (Object sections)) = []
  /\ (forall name,
        cfg !! name
        = match assoc name sections with
          | Some v => Some (merged (default_config !! name) v)
          | None => default_config !! name
          end)
  /\ (forall name m m' key,
        default_config !! name = Some (Mapping m) ->
        assoc name sections = Some (Mapping m') ->
        exists r, cfg !! name = Some (Mapping r)
                  /\ r !! key = match m' !! key with
                                | Some x => Some x
                                | None => m !! key
                                end).
Proof.
  intros Hnd Hok. cbn zeta.
  destruct (merge_sections_ok sections 0 default_config Hnd Hok) as (cfg' & Hrun & Hlook).
  assert (Hbody : load_config_body config_file true (Ok (Object sections)) default_config
                  = mkRes (Ok tt) cfg' []).
  { unfold load_config_body, merge_config, merge_sections. run. rewrite Hrun. reflexivity. }
  unfold load_config, load_config_warnings. rewrite Hbody. cbn [state logged].
  split; [reflexivity|]. split; [exact Hlook|].
  intros name m m' key Hdef Huser. exists (m' ∪ m). split.
  - rewrite Hlook, Huser, Hdef. reflexivity.
  - rewrite lookup_union. destruct (m' !! key), (m !! key); reflexivity.
Qed.

Lemma load_config_merges_sections_witness :
  load_config "config.json" true
    (Ok (Object [("api", Mapping {[ "port" := JNum 8080 ]}); ("alerts", Text "mail")]))
  !! "alerts" = Some (Text "mail").
Proof.
  destruct (load_config_merges_sections "config.json"
              [("api", Mapping {[ "port" := JNum 8080 ]}); ("alerts", Text "mail")])
    as (_ & Hlook & _).
  - apply (bool_decide_eq_true_1 _). vm_compute. reflexivity.
  - repeat constructor.
  - rewrite Hlook. reflexivity.
Defined.

Lemma assoc_None name sections : ~ In name (map fst sections) -> assoc name sections = None.
Proof.
  induction sections as [|[n v] rest IH]; intros Hn; [reflexivity|].
  cbn [assoc]. destruct (String.eqb_spec n name) as [->|_].
  - exfalso. apply Hn. now left.
  - apply IH. intros H. apply Hn. now right.
Qed.



Lemma for_each_state_inv {St A} (P : St -> Prop) (xs : list A) i (body : nat -> A -> M St unit) :
  (forall i x s, P s -> P (state (body i x s))) ->
  forall s, P s -> P (state (for_each i xs body s)).
Proof.
  intros Hb. revert i. induction xs as [|x xs IH]; intros i s Hs; [exact Hs|].
  cbn [for_each]. unfold bind.
  destruct (result (body i x s)); cbn [state]; [apply IH|]; now apply Hb.
Qed.

Lemma merge_section_keeps_setting name v sec key (cfg : gmap string section) :
  has_setting cfg sec key -> has_setting (state (merge_section name v cfg)) sec key.
Proof.
  intros (m & Hm & Hk). unfold merge_section. run.
  destruct (decide (name = sec)) as [->|Hne].
  - rewrite Hm. cbn [dict_update].
    destruct v as [m'|[|c t]|x]; run.
    + exists (m' ∪ m). split; [apply lookup_insert_eq|].
      rewrite lookup_union. destruct Hk as [x ->]. destruct (m' !! key); cbn; eauto.
    + exists m. split; [apply lookup_insert_eq|assumption].
    + now exists m.
    + now exists m.
  - destruct (cfg !! name) as [target|]; run.
    + destruct (dict_update target v); run; [|now exists m].
      exists m. rewrite lookup_insert_ne by assumption. now split.
    + exists m. rewrite lookup_insert_ne by assumption. now split.
Qed.

(** X14.  Whatever the configuration file holds, and whether or not it can
    be read, the dictionary [load_config] returns has the sections [api],
    [metrics] and [logging] as objects with every default key in them, so
    that the lookups of [LogMetricsCollector.__init__] find their keys. *)
Theorem load_config_keeps_default_settings
        (config_file : string) (file_exists : bool) (loaded : exc config_content) :
  Forall (fun setting =>
            has_setting (load_config config_file file_exists loaded) (fst setting) (snd setting))
         default_settings.
Proof.
  apply Forall_forall. intros [sec key] Hin. cbn [fst snd].
  assert (Hdef : has_setting default_config sec key).
  { apply list_elem_of_In in Hin. unfold default_settings in Hin. cbn in Hin.
    destruct Hin as [ [= <- <-] | [ [= <- <-] | [ [= <- <-] | [ [= <- <-]
                    | [ [= <- <-] | [ [= <- <-] | [ [= <- <-] | [] ] ] ] ] ] ] ];
      eexists; (split; [vm_compute; reflexivity|vm_compute; eauto]). }
  unfold load_config, load_config_body.
  destruct file_exists; [|exact Hdef].
  unfold try_except. run.
  destruct loaded as [content|e]; run; [|exact Hdef].
  assert (Hmerge : has_setting (state (merge_config content default_config)) sec key).
  { destruct content as [sections|[|c t]|v]; try exact Hdef.
    unfold merge_config, merge_sections.
    apply (for_each_state_inv (fun cfg => has_setting cfg sec key)); [|exact Hdef].
    intros i x s. apply merge_section_keeps_setting. }
  destruct (result (merge_config content default_config)); exact Hmerge.
Qed.


(** ** Watching the configured directories *)

Lemma filter_ext_in {A} (P Q : A -> Prop)
      `{!forall x, Decision (P x)} `{!forall x, Decision (Q x)} (l : list A) :
  (forall x, x ∈ l -> (P x <-> Q x)) -> filter P l = filter Q l.
Proof.
  induction l as [|x l IH]; intros Hpq; [reflexivity|].
  rewrite !filter_cons.
  assert (Hx : P x <-> Q x) by (apply Hpq; left).
  rewrite IH by (intros y Hy; apply Hpq; now right).
  destruct (decide (P x)), (decide (Q x)); tauto || reflexivity.
Qed.

Section MonitoringProperties.
Context {FS : Type}.
Variable fs_exists : FS -> string -> bool.
Variable fs_makedirs : FS -> string -> exc FS.

Lemma watch_directory_run d (mon : Monitor FS) :
  watch_directory fs_exists fs_makedirs d mon
  = if fs_exists (disk mon) d
    then mkRes (Ok tt) (mkMonitor (disk mon) (watches mon ++ [d]) (started mon)) []
    else match fs_makedirs (disk mon) d with
         | Ok fs' => mkRes (Ok tt) (mkMonitor fs' (watches mon) (started mon)) []
         | Raise e => mkRes (Raise e) mon []
         end.
Proof.
  unfold watch_directory. run.
  destruct (fs_exists (disk mon) d); run; [reflexivity|].
  destruct (fs_makedirs (disk mon) d); reflexivity.
Qed.

Lemma watch_loop_run (dirs : list string) : forall i (mon : Monitor FS) (all : list string),
  NoDup dirs ->
  (forall d, In d dirs -> In d all) ->
  (forall fs d, In d all -> exists fs', fs_makedirs fs d = Ok fs') ->
  (forall fs d fs' d',
     fs_makedirs fs d = Ok fs' -> In d' all -> d' <> d ->
     fs_exists fs' d' = fs_exists fs d') ->
  exists fs',
    for_each i dirs (fun _ log_dir => watch_directory fs_exists fs_makedirs log_dir) mon
    = mkRes (Ok tt)
        (mkMonitor fs'
           (watches mon ++ filter (fun d => fs_exists (disk mon) d = true) dirs)
           (started mon)) [].
Proof.
  induction dirs as [|d dirs IH]; intros i mon all Hnd Hall Hmake Hother.
  - exists (disk mon). cbn. rewrite app_nil_r. now destruct mon.
  - apply NoDup_cons in Hnd as [Hd Hnd].
    assert (Hall' : forall d', In d' dirs -> In d' all) by (intros d' H; apply Hall; now right).
    cbn [for_each]. unfold bind. rewrite watch_directory_run.
    destruct (fs_exists (disk mon) d) eqn:Hex; cbn [result state logged].
    + destruct (IH (S i) (mkMonitor (disk mon) (watches mon ++ [d]) (started mon)) all
                  Hnd Hall' Hmake Hother) as (fs' & Hrun).
      exists fs'. rewrite Hrun. cbn [result state logged disk watches started app].
      rewrite filter_cons_True by exact Hex. now rewrite <- app_assoc.
    + destruct (Hmake (disk mon) d (Hall d (or_introl eq_refl))) as [fs1 Hfs1].
      rewrite Hfs1. cbn [result state logged].
      destruct (IH (S i) (mkMonitor fs1 (watches mon) (started mon)) all
                  Hnd Hall' Hmake Hother) as (fs' & Hrun).
      exists fs'. rewrite Hrun. cbn [result state logged disk watches started app].
      rewrite filter_cons_False by (rewrite Hex; discriminate).
      do 3 f_equal. apply filter_ext_in.
      intros d' Hd'. cbn [disk]. rewrite (Hother _ _ _ d' Hfs1); [reflexivity| |].
      * apply Hall'. now apply list_elem_of_In.
      * intros ->. apply Hd. exact Hd'.
Qed.


End MonitoringProperties.


(** ** The route [/metrics] *)

(** X16.  The route [/metrics] never changes the stored history.  With a
    non-empty value of [current], whichever it is ([false] and [0]
    included), it samples the host and answers 200 with that one snapshot,
    or 500 when the sample fails; without [current], or with an empty
    value, it answers 200 with the history cut by [limit] and its length as
    count. *)
Theorem metrics_route_reads_only {num} (gb : Z -> num)
        (current_param : option string) (limit_param : option Z)
        (h : Host num) (sm : SystemMetrics num) :
  let r := get_metrics gb current_param limit_param h sm in
  state r = sm
  /\ (forall text, current_param = Some text -> text <> "" ->
        result r
        = Ok (match snapshot_of gb h with
              | Some m => MetricsResponse 200 [m] 1 "current"
              | None => ErrorResponse 500 "Could not collect current metrics"
              end))
  /\ (current_param = None \/ current_param = Some "" ->
      result r
      = Ok (MetricsResponse 200
              (get_metrics_history (Given limit_param) sm)
              (length (get_metrics_history (Given limit_param) sm)) "historical")
      /\ logged r = []).
Proof.
  cbn zeta. unfold get_metrics. run.
  destruct current_param as [[|c text]|]; cbn [Str.truthy].
  - run. split; [reflexivity|]. split; [intros t [= <-] Ht; congruence|].
    intros _. split; reflexivity.
  - run. rewrite get_current_metrics_run. run.
    destruct (snapshot_of gb h); run;
      (split; [reflexivity|]; split;
       [intros t _ _; reflexivity|intros [H|H]; discriminate H]).
  - run. split; [reflexivity|]. split; [intros t [=]|].
    intros _. split; reflexivity.
Qed.

Lemma metrics_route_reads_only_witness :
  result (get_metrics whole_gb (Some "false") None host_without_cpu running_sampler)
  = Ok (ErrorResponse 500 "Could not collect current metrics").
Proof.
  destruct (metrics_route_reads_only whole_gb (Some "false") None host_without_cpu
              running_sampler) as (_ & Hcur & _).
  rewrite (Hcur "false" eq_refl) by discriminate. vm_compute. reflexivity.
Defined.

(** ** Counters by level *)

Lemma count_key_iff line lvl :
  In lvl levels ->
  (count_key line = Str.lower lvl +:+ "_count" <-> classify line = lvl).
Proof.
  intros Hl. unfold count_key. pose proof (classify_levels line) as Hc.
  unfold levels in *. cbn [In] in *.
  destruct Hl as [ <- | [ <- | [ <- | [ <- | [ <- | [] ] ] ] ] ];
    destruct Hc as [ <- | [ <- | [ <- | [ <- | [ <- | [] ] ] ] ] ];
    split; intros H; try reflexivity; vm_compute in H; discriminate H.
Qed.

Lemma level_key_not_total lvl : In lvl levels -> "total_entries" <> Str.lower lvl +:+ "_count".
Proof.
  unfold levels. cbn [In].
  intros [ <- | [ <- | [ <- | [ <- | [ <- | [] ] ] ] ] ]; vm_compute; discriminate.
Qed.

(** X17.  After any sequence of appends to a fresh store, the counter of
    each of the five levels is the number of appended lines that classify
    as that level, evicted ones included. *)
Theorem level_counter_counts_its_level (C : nat) (calls : list Append) (lvl : string) :
  In lvl levels ->
  stat (Str.lower lvl +:+ "_count") (state (add_all calls (LogCollector_init C)))
  = Z.of_nat (length (filter (fun a => classify (a_line a) = lvl) calls)).
Proof.
  intros Hl. rewrite add_all_ok by apply init_complete. cbn [state].
  induction calls as [|a calls IH] using rev_ind.
  - unfold levels in Hl. cbn [In] in Hl.
    destruct Hl as [ <- | [ <- | [ <- | [ <- | [ <- | [] ] ] ] ] ]; reflexivity.
  - rewrite store_all_snoc, stat_store by (apply store_all_complete, init_complete).
    rewrite IH, filter_app, length_app, filter_cons, filter_nil.
    destruct (decide ("total_entries" = Str.lower lvl +:+ "_count")) as [E|_];
      [now apply level_key_not_total in E|].
    destruct (decide (count_key (a_line a) = Str.lower lvl +:+ "_count")) as [E|E];
      destruct (decide (classify (a_line a) = lvl)) as [E'|E']; cbn [length]; try lia.
    + exfalso. apply E'. now apply count_key_iff.
    + exfalso. apply E. now apply count_key_iff.
Qed.

Lemma level_counter_counts_its_level_witness :
  In "INFO" levels
  /\ stat "info_count" (store_of 2 error_then_infos) = 2.
Proof.
  assert (H : In "INFO" levels) by (cbn; tauto).
  split; [exact H|].
  exact (level_counter_counts_its_level 2 error_then_infos "INFO" H).
Defined.

(** ** A file that was replaced *)

(** X18.  The tailer does not check that the text before the tracked
    offset is the text it read: when the file at a path is replaced by an
    ASCII text longer than the tracked offset, the next notification
    delivers the lines of the new text from that offset on and nothing of
    what lies before it, and moves the offset to the new size. *)
Theorem replaced_file_is_read_from_old_offset
        (path skipped rest : string) (dirs : gmap string (list string)) (time : string)
        (a : LogMetricsCollector) :
  reachable a ->
  last_position path a = Z.of_nat (String.length skipped) ->
  let os := Disk.os {[ path := skipped +:+ rest ]} dirs time in
  let a' := state (process_log_file os path a) in
  log_collector a' = store_all (appends_of os path 0 (text_lines rest)) (log_collector a)
  /\ map a_line (appends_of os path 0 (text_lines rest)) = kept_lines (text_lines rest)
  /\ last_position path a' = Z.of_nat (String.length (skipped +:+ rest)).
Proof.
  intros Hr Hpos. cbn zeta. apply reachable_complete in Hr as Hc.
  destruct (process_disk path (skipped +:+ rest) dirs time a Hc) as [Hlc Hnew].
  { rewrite Hpos, str_length_app. lia. }
  rewrite Hpos, Nat2Z.id, str_drop_app in Hlc.
  split; [exact Hlc|]. split; [apply appends_of_lines|exact Hnew].
Qed.

Lemma replaced_file_is_read_from_old_offset_witness :
  reachable after_first_read
  /\ last_position app_log after_first_read = Z.of_nat (String.length two_lines)
  /\ map message
       (log_entries (log_collector
          (state (process_log_file
                    (Disk.os {[ app_log := two_lines +:+ one_new_line ]} ∅ "2024-01-01T00:09:00")
                    app_log after_first_read))))
     = ["[INFO] started"; "[INFO] listening"; "[ERROR] disk full"].
Proof.
  assert (Hpos : last_position app_log after_first_read = Z.of_nat (String.length two_lines))
    by (vm_compute; reflexivity).
  split; [exact reachable_first_read|]. split; [exact Hpos|].
  destruct (replaced_file_is_read_from_old_offset app_log two_lines one_new_line ∅
              "2024-01-01T00:09:00" after_first_read reachable_first_read Hpos)
    as (Hlc & _).
  rewrite Hlc. vm_compute. reflexivity.
Defined.
